(** * The cache engine of sauri: an embedding of package [cache]

    The package implements one [Cache] contract over two key-value
    backends: an embedded ordered store (Badger) and a remote in-memory
    store (Redis).  This file embeds the wildcard matcher, the
    operations of the two backends that the properties below are about,
    and the parts of the two stores those operations call. *)

From Stdlib Require Import ZArith Lia Ascii.
From stdpp Require Import base option list list_numbers gmap strings pretty sorting.

Local Open Scope Z_scope.

(** ** Go strings

    A Go [string] is a sequence of bytes; [string] (a list of [ascii])
    is the same data.  The functions of package [strings] that the
    cache calls are written out here. *)

Module GoStrings.

(** [len(s)] *)
Definition len (s : string) : nat := String.length s.

(** [strings.HasPrefix(s, prefix)] *)
Fixpoint HasPrefix (s prefix : string) {struct prefix} : bool :=
  match prefix, s with
  | EmptyString, _ => true
  | String _ _, EmptyString => false
  | String p prefix', String c s' =>
      if decide (c = p) then HasPrefix s' prefix' else false
  end.

(** [s[n:]] for [n <= len(s)] *)
Fixpoint slice_from (n : nat) (s : string) : string :=
  match n, s with
  | O, _ => s
  | S n', String _ s' => slice_from n' s'
  | S _, EmptyString => EmptyString
  end.

(** [strings.HasSuffix(s, suffix)]:
    [len(s) >= len(suffix) && s[len(s)-len(suffix):] == suffix] *)
Definition HasSuffix (s suffix : string) : bool :=
  (len suffix <=? len s)%nat
  && bool_decide (slice_from (len s - len suffix) s = suffix).

(** [strings.TrimPrefix(s, prefix)] *)
Definition TrimPrefix (s prefix : string) : string :=
  if HasPrefix s prefix then slice_from (len prefix) s else s.

(** [strings.Contains(s, sep)] for a one-byte [sep] *)
Fixpoint Contains (s : string) (sep : ascii) : bool :=
  match s with
  | EmptyString => false
  | String c s' => if decide (c = sep) then true else Contains s' sep
  end.

(** [strings.Split(s, sep)] for a one-byte [sep]: the pieces of [s]
    between the occurrences of [sep]; one more piece than there are
    occurrences, so never empty. *)
Fixpoint Split (s : string) (sep : ascii) : list string :=
  match s with
  | EmptyString => [EmptyString]
  | String c s' =>
      let rest := Split s' sep in
      if decide (c = sep) then EmptyString :: rest
      else String c (hd EmptyString rest) :: tl rest
  end.

(** The text of [s] before the first [sep] (all of [s] when there is
    none), and the text after it. *)
Fixpoint before (sep : ascii) (s : string) : string :=
  match s with
  | EmptyString => EmptyString
  | String c s' => if decide (c = sep) then EmptyString else String c (before sep s')
  end.

Fixpoint after (sep : ascii) (s : string) : string :=
  match s with
  | EmptyString => EmptyString
  | String c s' => if decide (c = sep) then s' else after sep s'
  end.

End GoStrings.

Import GoStrings.

(** ** The wildcard matcher *)

Definition star : ascii := "*"%char.

(** [matchWildcard(str, pattern)] *)
Definition matchWildcard (str pattern : string) : bool :=
  let parts := Split pattern star in
  if decide (length parts = 1%nat) then bool_decide (str = pattern)
  else if negb (HasPrefix str (nth 0 parts EmptyString)) then false
  else if bool_decide (1 < length parts)%nat
          && negb (bool_decide (nth 1 parts EmptyString = EmptyString))
          && negb (HasSuffix str (nth 1 parts EmptyString))
       then false
       else true.

(** ** Errors and results

    A Go [error] value is either one of the sentinel errors of the two
    store clients, a fresh message, or a message wrapping a cause
    ([fmt.Errorf] with [%w]). *)

Inductive error : Type :=
  | ErrKeyNotFound                       (* badger.ErrKeyNotFound *)
  | ErrConflict                          (* badger.ErrConflict *)
  | ErrNil                               (* redis.ErrNil *)
  | ErrGob                               (* an error of encoding/gob *)
  | ErrReply (msg : string)              (* an error reply of the remote store *)
  | New (msg : string)                   (* fmt.Errorf without %w *)
  | Newf (format : string) (arg : Z)     (* fmt.Errorf with one %d operand *)
  | Wrap (msg : string) (cause : error). (* fmt.Errorf("msg: %w", cause) *)

Global Instance error_eq_dec : EqDecision error.
Proof. solve_decision. Defined.

(** [errors.Is(err, target)] *)
Fixpoint errors_Is (err target : error) : bool :=
  bool_decide (err = target)
  || match err with
     | Wrap _ cause => errors_Is cause target
     | _ => false
     end.

(** A Go pair [(x, err)] of which exactly one side is set. *)
Inductive result (A : Type) : Type :=
  | Ok (a : A)
  | Err (e : error).
Global Arguments Ok {A} a.
Global Arguments Err {A} e.

(** [time.Duration]: a count of nanoseconds (an int64). *)
Abbreviation Duration := Z (only parsing).
Definition Second : Duration := 1000000000.
Definition Minute : Duration := 60 * Second.

(** The conversion to int64 wraps; [Time.Sub] saturates at the ends of
    the int64 range. *)
Definition int64 (z : Z) : Z := (z + 2 ^ 63) `mod` 2 ^ 64 - 2 ^ 63.
Definition saturate (d : Z) : Duration := Z.max (- 2 ^ 63) (Z.min (2 ^ 63 - 1) d).

(** ** The value codec

    Values are [interface{}]; the codec wraps one value in an
    [EntryCache] (a [map[string]interface{}]) and hands it to
    [encoding/gob].  The gob encoder and decoder are outside the
    repository: they are the two operations of this class, [None]
    standing for a gob error. *)

Class Gob (V : Type) : Type := {
  gob_Encode : gmap string V → option string;
  gob_Decode : string → option (gmap string V)
}.

Section codec.
Context {V : Type} {codec : Gob V}.

(** [encodeValue(item)] *)
Definition encodeValue (item : gmap string V) : result string :=
  match gob_Encode item with
  | Some buff => Ok buff
  | None => Err (Wrap "failed to encode value: " ErrGob)
  end.

(** [decodeValue(data)] *)
Definition decodeValue (data : string) : result (gmap string V) :=
  match gob_Decode data with
  | Some item => Ok item
  | None => Err (Wrap "failed to decode value: " ErrGob)
  end.
End codec.

(** ** The embedded backend *)

Module Badger.

(** *** The store, as the cache uses it

    The store maps keys to items; an item carries its value and its
    expiry, a Unix time in seconds as a uint64, zero for none.  Reads
    and iterators skip expired items.  [now] is the wall clock in
    nanoseconds since the Unix epoch.  The store's limits on key,
    value and transaction size are not part of the model. *)

Record Item : Type := mkItem { Value : string; ExpiresAt : Z }.

Global Instance Item_eq_dec : EqDecision Item.
Proof. solve_decision. Defined.

Abbreviation DB := (gmap string Item).

(** [time.Now().Unix()] *)
Definition Unix (now : Z) : Z := now / Second.

(** [isDeletedOrExpired] of the store, for an item that is present *)
Definition expired (now : Z) (item : Item) : bool :=
  if decide (ExpiresAt item = 0) then false
  else bool_decide (ExpiresAt item ≤ Unix now `mod` 2 ^ 64).

(** [txn.Get(key)] *)
Definition txn_Get (now : Z) (txn : DB) (key : string) : result Item :=
  match txn !! key with
  | Some item => if expired now item then Err ErrKeyNotFound else Ok item
  | None => Err ErrKeyNotFound
  end.

(** [badger.NewEntry(key, value)]: no expiry *)
Definition NewEntry (value : string) : Item := mkItem value 0.

(** [e.WithTTL(dur)]: [ExpiresAt = uint64(time.Now().Add(dur).Unix())] *)
Definition WithTTL (now : Z) (e : Item) (dur : Duration) : Item :=
  mkItem (Value e) (((now + dur) / Second) `mod` 2 ^ 64).

(** [txn.SetEntry(e)] and [txn.Delete(key)] *)
Definition txn_SetEntry (key : string) (e : Item) (txn : DB) : DB := <[key := e]> txn.
Definition txn_Delete (key : string) (txn : DB) : DB := delete key txn.

(** The keys an iterator of a transaction visits, in order: the
    live keys, in ascending byte order.  The iterator works on the
    snapshot taken when it is created. *)
Definition iterator (now : Z) (txn : DB) : list string :=
  merge_sort String.le
    (fst <$> filter (λ kv, expired now kv.2 = false) (map_to_list txn)).

(** [it.Seek(prefix)]: skip to the first key [>= prefix] *)
Fixpoint Seek (prefix : string) (it : list string) : list string :=
  match it with
  | [] => []
  | key :: rest =>
      if bool_decide (String.le prefix key) then it else Seek prefix rest
  end.

(** [db.Update(fn)]: run [fn] in a read-write transaction and commit.
    An error of [fn] discards the transaction; so does a conflict
    with a concurrent writer at commit, reported as [ErrConflict].
    [conflict] says whether this commit meets one. *)
Definition DBConn_Update (conflict : bool) (fn : DB → result DB) (db : DB)
  : DB * option error :=
  match fn db with
  | Err e => (db, Some e)
  | Ok txn => if conflict then (db, Some ErrConflict) else (txn, None)
  end.

(** [db.View(fn)]: run [fn] in a read-only transaction *)
Definition DBConn_View {A} (fn : DB → result A) (db : DB) : result A := fn db.

(** *** The cache over the store *)

Record BadgerCache : Type := { Prefix : string }.

(** [b.prefixedKey(key)]: [fmt.Sprintf("%s:%s", b.Prefix, key)] *)
Definition prefixedKey (b : BadgerCache) (key : string) : string :=
  Prefix b +:+ ":" +:+ key.

Section with_codec.
Context {V : Type} {codec : Gob V}.

(** [b.Set(keyStr, value, expires...)].  The single-key operations
    are modelled without a concurrent writer: their commit meets no
    conflict. *)
Definition Set_ (b : BadgerCache) (now : Z) (keyStr : string) (value : V)
    (expires : list Duration) (db : DB) : DB * option error :=
  let finalPrefixedKey := prefixedKey b keyStr in
  DBConn_Update false (λ txn,
    let itemEntry : gmap string V := <[finalPrefixedKey := value]> ∅ in
    match encodeValue itemEntry with
    | Err err => Err (Wrap "failed to encode value: " err)
    | Ok encodedValue =>
        let newEntry := NewEntry encodedValue in
        let newEntry :=
          match expires with
          | d :: _ => WithTTL now newEntry d
          | [] => newEntry
          end in
        Ok (txn_SetEntry finalPrefixedKey newEntry txn)
    end) db.

(** [b.Get(keyStr)] *)
Definition Get (b : BadgerCache) (now : Z) (keyStr : string) (db : DB)
  : result (option V) :=
  let prefixedKey := prefixedKey b keyStr in
  match DBConn_View (λ txn,
          match txn_Get now txn prefixedKey with
          | Err err => Err err
          | Ok item => Ok (Value item)
          end) db with
  | Err err =>
      if errors_Is err ErrKeyNotFound then Err (New "key not found")
      else Err (Wrap "transaction to get the value failed: " err)
  | Ok result =>
      match decodeValue result with
      | Err err => Err err
      | Ok decoded =>
          match decoded !! prefixedKey with
          | None => Err (New ("key " +:+ prefixedKey +:+ " not found in decoded value"))
          | Some item => Ok (Some item)
          end
      end
  end.

(** [b.Update(keyStr, value, expires...)] *)
Definition Update (b : BadgerCache) (now : Z) (keyStr : string) (value : V)
    (expires : list Duration) (db : DB) : DB * option error :=
  let prefixedKey := prefixedKey b keyStr in
  let entry : gmap string V := <[prefixedKey := value]> ∅ in
  match encodeValue entry with
  | Err err => (db, Some (Wrap "failed to encode value: " err))
  | Ok encoded =>
      DBConn_Update false (λ txn,
        let e := NewEntry encoded in
        let e :=
          match expires with
          | d :: _ => WithTTL now e d
          | [] => e
          end in
        Ok (txn_SetEntry prefixedKey e txn)) db
  end.
End with_codec.

(** [b.Exists(keyStr)] *)
Definition Exists (b : BadgerCache) (now : Z) (keyStr : string) (db : DB)
  : result bool :=
  let prefixedKey := prefixedKey b keyStr in
  let err :=
    DBConn_View (λ txn,
      match txn_Get now txn prefixedKey with
      | Err err =>
          if errors_Is err ErrKeyNotFound then Err ErrKeyNotFound else Err err
      | Ok _ => Ok ()
      end) db in
  match err with
  | Err e => if errors_Is e ErrKeyNotFound then Ok false else Err e
  | Ok _ => Ok true
  end.

(** [b.Delete(keyStr)] *)
Definition Delete (b : BadgerCache) (keyStr : string) (db : DB)
  : DB * option error :=
  let prefixedKey := prefixedKey b keyStr in
  DBConn_Update false (λ txn, Ok (txn_Delete prefixedKey txn)) db.

(** [b.Expire(keyStr, expiration)] *)
Definition Expire (b : BadgerCache) (now : Z) (keyStr : string)
    (expiration : Duration) (db : DB) : DB * option error :=
  let prefixedKey := prefixedKey b keyStr in
  DBConn_Update false (λ txn,
    match txn_Get now txn prefixedKey with
    | Err err => Err err
    | Ok item =>
        let e := WithTTL now (NewEntry (Value item)) expiration in
        Ok (txn_SetEntry prefixedKey e txn)
    end) db.

(** [b.TTL(keyStr)].  [time.Until] saturates at the ends of the int64
    range; [int64(...)] of the uint64 expiry wraps. *)
Definition TTL (b : BadgerCache) (now : Z) (keyStr : string) (db : DB)
  : result Duration :=
  let prefixedKey := prefixedKey b keyStr in
  match DBConn_View (λ txn,
          match txn_Get now txn prefixedKey with
          | Err err => Err err
          | Ok item =>
              if bool_decide (0 < ExpiresAt item)
              then Ok (saturate (int64 (ExpiresAt item) * Second - now))
              else Ok 0
          end) db with
  | Err err => Err (Wrap "failed to retrieve TTL: " err)
  | Ok ttl => Ok ttl
  end.

(** The scanning loop of [Keys] and [KeysWithBatchSize]:
    [for it.Rewind(); it.Valid(); it.Next()], appending the keys that
    qualify; with a batch size, [break] as soon as
    [len(keys) >= batchSize] after an append. *)
Fixpoint scan (qualifies : string → bool) (batchSize : option Z)
    (it : list string) (keys : list string) : list string :=
  match it with
  | [] => keys
  | key :: rest =>
      if qualifies key then
        let keys := keys ++ [key] in
        match batchSize with
        | Some n =>
            if bool_decide (n ≤ Z.of_nat (length keys)) then keys
            else scan qualifies batchSize rest keys
        | None => scan qualifies batchSize rest keys
        end
      else scan qualifies batchSize rest keys
  end.

(** The loop over several exact keys: a key is appended when
    [txn.Get] finds it, a not-found error is passed over, any other
    error is returned; with a batch size, [break] once
    [len(keys) >= batchSize] at the end of a round. *)
Fixpoint each_key (b : BadgerCache) (now : Z) (txn : DB) (batchSize : option Z)
    (patternOrKey : list string) (keys : list string) : result (list string) :=
  match patternOrKey with
  | [] => Ok keys
  | k :: rest =>
      let prefixedKey := prefixedKey b k in
      match
        match txn_Get now txn prefixedKey with
        | Ok _ => Ok (keys ++ [prefixedKey])
        | Err err => if negb (errors_Is err ErrKeyNotFound) then Err err else Ok keys
        end
      with
      | Err err => Err err
      | Ok keys =>
          match batchSize with
          | Some n =>
              if bool_decide (n ≤ Z.of_nat (length keys)) then Ok keys
              else each_key b now txn batchSize rest keys
          | None => each_key b now txn batchSize rest keys
          end
      end
  end.

(** The body shared by [Keys] and [KeysWithBatchSize]: the three call
    shapes, inside one read-only transaction. *)
Definition keys_in_txn (b : BadgerCache) (now : Z) (batchSize : option Z)
    (patternOrKey : list string) (txn : DB) : result (list string) :=
  match patternOrKey with
  | [] =>
      let prefixedPattern := Prefix b +:+ ":" in
      Ok (scan (λ key, HasPrefix key prefixedPattern) batchSize (iterator now txn) [])
  | [pattern] =>
      if Contains pattern star then
        let prefixedPattern := prefixedKey b "" in
        Ok (scan (λ key,
                    if HasPrefix key prefixedPattern
                    then matchWildcard (TrimPrefix key (Prefix b +:+ ":")) pattern
                    else false)
                 batchSize (iterator now txn) [])
      else
        let prefixedKey := prefixedKey b pattern in
        match txn_Get now txn prefixedKey with
        | Ok _ => Ok [prefixedKey]
        | Err err => if negb (errors_Is err ErrKeyNotFound) then Err err else Ok []
        end
  | _ => each_key b now txn batchSize patternOrKey []
  end.

(** [b.Keys(patternOrKey...)] *)
Definition Keys (b : BadgerCache) (now : Z) (patternOrKey : list string) (db : DB)
  : result (list string) :=
  match DBConn_View (keys_in_txn b now None patternOrKey) db with
  | Err err => Err (Wrap "failed to retrieve keys: " err)
  | Ok keys => Ok keys
  end.

(** [b.KeysWithBatchSize(batchSize, patternOrKey...)] *)
Definition KeysWithBatchSize (b : BadgerCache) (now : Z) (batchSize : Z)
    (patternOrKey : list string) (db : DB) : result (list string) :=
  let batchSize := if decide (batchSize = 0) then 1000 else batchSize in
  match DBConn_View (keys_in_txn b now (Some batchSize) patternOrKey) db with
  | Err err => Err (Wrap "failed to retrieve keys: " err)
  | Ok keys => Ok keys
  end.

(** The loop of [deleteKeysMatchingPattern]:
    [for it.Seek(prefix); it.ValidForPrefix(prefix); it.Next()]. *)
Fixpoint delete_loop (pattern prefix : string) (batchSize : Z)
    (it : list string) (txn : DB) (deleted : Z) : DB * Z :=
  match it with
  | [] => (txn, deleted)
  | key :: rest =>
      if negb (HasPrefix key prefix) then (txn, deleted)
      else if Contains pattern star && negb (matchWildcard key pattern)
      then delete_loop pattern prefix batchSize rest txn deleted
      else
        let txn := txn_Delete key txn in
        let deleted := deleted + 1 in
        if bool_decide (batchSize ≤ deleted) then (txn, deleted)
        else delete_loop pattern prefix batchSize rest txn deleted
  end.

(** [b.deleteKeysMatchingPattern(txn, pattern, batchSize)] *)
Definition deleteKeysMatchingPattern (now : Z) (txn : DB) (pattern : string)
    (batchSize : Z) : DB * Z * option error :=
  let prefix := nth 0 (Split pattern star) EmptyString in
  let '(txn, deleted) :=
    delete_loop pattern prefix batchSize (Seek prefix (iterator now txn)) txn 0 in
  (txn, deleted, None).

(** The retry loop of [emptyWithRetries], [for retries < maxRetries]:
    [remaining] is [maxRetries - retries]; [conflicts] gives, commit
    by commit, whether a concurrent writer makes it fail. *)
Inductive attempt : Type :=
  | Committed
  | Exhausted
  | Failed (err : error).

Fixpoint retry_loop (deleteFunc : DB → Z → DB * Z * option error) (batchSize : Z)
    (remaining : nat) (conflicts : list bool) (db : DB) : DB * attempt :=
  match remaining with
  | O => (db, Exhausted)
  | S remaining =>
      match
        DBConn_Update (hd false conflicts) (λ txn,
          let '(txn, deleted, err) := deleteFunc txn batchSize in
          match err with
          | Some err => Err err
          | None => if decide (deleted = 0) then Ok txn else Ok txn
          end) db
      with
      | (db, Some err) =>
          if errors_Is err ErrConflict
          then retry_loop deleteFunc batchSize remaining (tl conflicts) db
          else (db, Failed (Wrap "failed to empty keys: " err))
      | (db, None) => (db, Committed)
      end
  end.

(** [b.emptyWithRetries(deleteFunc, batchSize, maxRetries)].  The outer
    [for] ends in an unconditional [break]: its body runs once. *)
Definition emptyWithRetries (deleteFunc : DB → Z → DB * Z * option error)
    (batchSize maxRetries : Z) (conflicts : list bool) (db : DB)
  : DB * option error :=
  match retry_loop deleteFunc batchSize (Z.to_nat maxRetries) conflicts db with
  | (db, Failed err) => (db, Some err)
  | (db, Exhausted) => (db, Some (Newf "failed to empty keys after %d retries" maxRetries))
  | (db, Committed) => (db, None)
  end.

(** [b.EmptyByMatch(pattern)] *)
Definition EmptyByMatch (b : BadgerCache) (now : Z) (conflicts : list bool)
    (pattern : string) (db : DB) : DB * option error :=
  let prefix := nth 0 (Split pattern star) EmptyString in
  let prefixedPattern := (Prefix b +:+ ":") +:+ prefix in
  let batchSize := 10000 in
  let maxRetries := 3 in
  emptyWithRetries
    (λ txn batchSize, deleteKeysMatchingPattern now txn prefixedPattern batchSize)
    batchSize maxRetries conflicts db.

(** [b.Empty()] *)
Definition Empty (b : BadgerCache) (now : Z) (conflicts : list bool) (db : DB)
  : DB * option error :=
  let prefixedPattern := Prefix b +:+ ":" in
  let batchSize := 10000 in
  let maxRetries := 3 in
  emptyWithRetries
    (λ txn batchSize, deleteKeysMatchingPattern now txn prefixedPattern batchSize)
    batchSize maxRetries conflicts db.

(** [b.RefreshTTL(keyStr, newTTL)] *)
Definition RefreshTTL (b : BadgerCache) (now : Z) (keyStr : string)
    (newTTL : Duration) (db : DB) : DB * option error :=
  let prefixedKey := prefixedKey b keyStr in
  DBConn_Update false (λ txn,
    match txn_Get now txn prefixedKey with
    | Err err => Err err
    | Ok item =>
        let e := WithTTL now (NewEntry (Value item)) newTTL in
        Ok (txn_SetEntry prefixedKey e txn)
    end) db.

(** A write batch collects its writes and applies them at [Flush];
    [Cancel] drops what is pending.  It reads nothing, so its commit
    meets no conflict.  The batch is modelled below the size at which
    the store commits it in parts. *)

(** The loop of [DeleteMultiple] *)
Fixpoint delete_each (b : BadgerCache) (keys : list string) (wb : DB) : DB :=
  match keys with
  | [] => wb
  | keyStr :: rest => delete_each b rest (txn_Delete (prefixedKey b keyStr) wb)
  end.

(** [b.DeleteMultiple(keys)] *)
Definition DeleteMultiple (b : BadgerCache) (keys : list string) (db : DB)
  : DB * option error :=
  (delete_each b keys db, None).

(** [b.Clear()]: [db.DropAll()] *)
Definition Clear (db : DB) : DB * option error := (∅, None).

(** [b.DropByPrefix()]: [db.DropPrefix([]byte(b.Prefix))], which
    removes every key that starts with the given bytes *)
Definition DropByPrefix (b : BadgerCache) (db : DB) : DB * option error :=
  (filter (λ kv, HasPrefix kv.1 (Prefix b) = false) db, None).

Section batches.
Context {V : Type} {codec : Gob V}.

(** The loop of [SetMultiple] and of [UpdateMultiple],
    [for keyStr, value := range items], over the items in the order
    the range yields them *)
Fixpoint set_each (b : BadgerCache) (now : Z) (expires : list Duration)
    (items : list (string * V)) (wb : DB) : result DB :=
  match items with
  | [] => Ok wb
  | (keyStr, value) :: rest =>
      let finalPrefixedKey := prefixedKey b keyStr in
      let itemEntry : gmap string V := <[finalPrefixedKey := value]> ∅ in
      match encodeValue itemEntry with
      | Err err => Err (Wrap "failed to encode value: " err)
      | Ok encodedValue =>
          let newEntry := NewEntry encodedValue in
          let newEntry :=
            match expires with
            | d :: _ => WithTTL now newEntry d
            | [] => newEntry
            end in
          set_each b now expires rest (txn_SetEntry finalPrefixedKey newEntry wb)
      end
  end.

(** [b.SetMultiple(items, expires...)]; [order] is the order in which
    the range over the map yields its entries *)
Definition SetMultiple (b : BadgerCache) (now : Z) (order : list (string * V))
    (expires : list Duration) (db : DB) : DB * option error :=
  match set_each b now expires order db with
  | Err err => (db, Some err)
  | Ok wb => (wb, None)
  end.

(** [b.UpdateMultiple(items, expires...)] *)
Definition UpdateMultiple (b : BadgerCache) (now : Z) (order : list (string * V))
    (expires : list Duration) (db : DB) : DB * option error :=
  match set_each b now expires order db with
  | Err err => (db, Some err)
  | Ok wb => (wb, None)
  end.

(** The loop of [GetAll], [for it.Rewind(); it.Valid(); it.Next()];
    a [nil] value of the result map is [None] *)
Fixpoint get_all (txn : DB) (it : list string) (results : gmap string (option V))
  : result (gmap string (option V)) :=
  match it with
  | [] => Ok results
  | key :: rest =>
      match txn !! key with
      | None => get_all txn rest results
      | Some item =>
          match decodeValue (Value item) with
          | Err err => Err err
          | Ok decoded => get_all txn rest (<[key := decoded !! key]> results)
          end
      end
  end.

(** [b.GetAll()] *)
Definition GetAll (b : BadgerCache) (now : Z) (db : DB)
  : result (gmap string (option V)) :=
  match DBConn_View (λ txn, get_all txn (iterator now txn) ∅) db with
  | Err err => Err (Wrap "failed to retrieve all key-value pairs: " err)
  | Ok results => Ok results
  end.

End batches.

End Badger.

(** ** The remote backend *)

Module Redis.

(** *** The server, as the cache uses it

    The server maps keys to byte strings, each with an optional expiry
    (an absolute time in milliseconds); a key past its expiry is gone.
    The commands below follow the server's command reference; [now] is
    the server's clock in milliseconds.  A reply is what [conn.Do]
    returns; an error reply comes back as the error of [conn.Do].
    Transport failures are not part of the model. *)

Record Entry : Type := mkEntry { Data : string; ExpireAt : option Z }.

Abbreviation Server := (gmap string Entry).

Inductive reply : Type :=
  | Nil
  | Integer (n : Z)
  | Bulk (data : string)
  | Status (s : string).

Definition live (now : Z) (e : Entry) : bool :=
  match ExpireAt e with
  | None => true
  | Some t => bool_decide (now < t)
  end.

Definition find (now : Z) (srv : Server) (key : string) : option Entry :=
  match srv !! key with
  | Some e => if live now e then Some e else None
  | None => None
  end.

(** [SET key value]: store the value and drop any expiry *)
Definition SET (key value : string) (srv : Server) : Server * result reply :=
  (<[key := mkEntry value None]> srv, Ok (Status "OK")).

(** [SETEX key seconds value] *)
Definition SETEX (now : Z) (key : string) (seconds : Z) (value : string)
    (srv : Server) : Server * result reply :=
  if bool_decide (seconds ≤ 0)
  then (srv, Err (ErrReply "ERR invalid expire time in 'setex' command"))
  else (<[key := mkEntry value (Some (now + seconds * 1000))]> srv, Ok (Status "OK")).

(** [GET key] *)
Definition GET (now : Z) (key : string) (srv : Server) : result reply :=
  match find now srv key with
  | Some e => Ok (Bulk (Data e))
  | None => Ok Nil
  end.

(** [EXISTS key] *)
Definition EXISTS (now : Z) (key : string) (srv : Server) : result reply :=
  match find now srv key with
  | Some _ => Ok (Integer 1)
  | None => Ok (Integer 0)
  end.

(** [DEL key] *)
Definition DEL (now : Z) (key : string) (srv : Server) : Server * result reply :=
  match find now srv key with
  | Some _ => (delete key srv, Ok (Integer 1))
  | None => (delete key srv, Ok (Integer 0))
  end.

(** [EXPIRE key seconds]: 0 when the key does not exist; a timeout
    that is not positive deletes the key. *)
Definition EXPIRE (now : Z) (key : string) (seconds : Z) (srv : Server)
  : Server * result reply :=
  match find now srv key with
  | None => (srv, Ok (Integer 0))
  | Some e =>
      if bool_decide (seconds ≤ 0) then (delete key srv, Ok (Integer 1))
      else (<[key := mkEntry (Data e) (Some (now + seconds * 1000))]> srv,
            Ok (Integer 1))
  end.

(** [TTL key]: -2 when the key does not exist, -1 when it has no
    expiry, else the remaining seconds, rounded. *)
Definition TTL_ (now : Z) (key : string) (srv : Server) : result reply :=
  match find now srv key with
  | None => Ok (Integer (-2))
  | Some e =>
      match ExpireAt e with
      | None => Ok (Integer (-1))
      | Some t => Ok (Integer ((t - now + 500) / 1000))
      end
  end.

(** The reply converters of the client library *)
Definition redis_Bytes (r : result reply) : result string :=
  match r with
  | Err err => Err err
  | Ok (Bulk data) => Ok data
  | Ok (Status s) => Ok s
  | Ok Nil => Err ErrNil
  | Ok (Integer _) => Err (New "redigo: unexpected type for Bytes")
  end.

Definition redis_Bool (r : result reply) : result bool :=
  match r with
  | Err err => Err err
  | Ok (Integer n) => Ok (negb (bool_decide (n = 0)))
  | Ok Nil => Err ErrNil
  | Ok _ => Err (New "redigo: unexpected type for Bool")
  end.

Definition redis_Int (r : result reply) : result Z :=
  match r with
  | Err err => Err err
  | Ok (Integer n) => Ok n
  | Ok Nil => Err ErrNil
  | Ok _ => Err (New "redigo: unexpected type for Int")
  end.

(** [int(d.Minutes())]: the duration in minutes as a float64, cut to
    an int.  The float64 arithmetic is not modelled; the conversion is
    the operation of this class. *)
Class MinutesConv : Type := int_Minutes : Duration → Z.

(** *** The cache over the server *)

Record RedisCache : Type := { Prefix : string }.

(** [rc.prefixedKey(key)]: [fmt.Sprintf("%s:%s", rc.Prefix, key)] *)
Definition prefixedKey (rc : RedisCache) (key : string) : string :=
  Prefix rc +:+ ":" +:+ key.

Section with_codec.
Context {V : Type} {codec : Gob V} {minutes : MinutesConv}.

(** [rc.Set(keyStr, value, expires...)] *)
Definition Set_ (rc : RedisCache) (now : Z) (keyStr : string) (value : V)
    (expires : list Duration) (srv : Server) : Server * option error :=
  let prefixedKey := prefixedKey rc keyStr in
  let entryCache : gmap string V := <[prefixedKey := value]> ∅ in
  match encodeValue entryCache with
  | Err err => (srv, Some (Wrap "failed to encode value: " err))
  | Ok encodedData =>
      let '(srv, r) :=
        match expires with
        | d :: _ => SETEX now prefixedKey (int_Minutes d) encodedData srv
        | [] => SET prefixedKey encodedData srv
        end in
      match r with
      | Err err => (srv, Some (Wrap "failed to set cache: " err))
      | Ok _ => (srv, None)
      end
  end.

(** [rc.Get(keyStr)]: [Ok None] is the pair [(nil, nil)] *)
Definition Get (rc : RedisCache) (now : Z) (keyStr : string) (srv : Server)
  : result (option V) :=
  let prefixedKey := prefixedKey rc keyStr in
  match redis_Bytes (GET now prefixedKey srv) with
  | Err err =>
      if errors_Is err ErrNil then Ok None
      else Err (Wrap "failed to get cache: " err)
  | Ok cacheRetrieved =>
      match decodeValue cacheRetrieved with
      | Err err => Err (Wrap "failed to decode value: " err)
      | Ok result => Ok (result !! prefixedKey)
      end
  end.

(** [rc.Update(keyStr, value, expires...)] *)
Definition Update (rc : RedisCache) (now : Z) (keyStr : string) (value : V)
    (expires : list Duration) (srv : Server) : Server * option error :=
  let prefixedKey := prefixedKey rc keyStr in
  match redis_Bool (EXISTS now prefixedKey srv) with
  | Err err => (srv, Some (Wrap ("failed to check existence of key " +:+ keyStr +:+ ": ") err))
  | Ok exists_ =>
      if negb exists_ then (srv, Some (New ("key " +:+ keyStr +:+ " does not exist")))
      else
        let entryCache : gmap string V := <[prefixedKey := value]> ∅ in
        match encodeValue entryCache with
        | Err err => (srv, Some (Wrap "failed to encode value: " err))
        | Ok encodedValue =>
            match SET prefixedKey encodedValue srv with
            | (srv, Err err) => (srv, Some (Wrap "failed to set cache: " err))
            | (srv, Ok _) =>
                match expires with
                | d :: _ =>
                    match EXPIRE now prefixedKey (int_Minutes d) srv with
                    | (srv, Err err) => (srv, Some (Wrap "failed to update expiration: " err))
                    | (srv, Ok _) => (srv, None)
                    end
                | [] => (srv, None)
                end
            end
        end
  end.
End with_codec.

(** [rc.Exists(keyStr)] *)
Definition Exists (rc : RedisCache) (now : Z) (keyStr : string) (srv : Server)
  : result bool :=
  let prefixedKey := prefixedKey rc keyStr in
  match redis_Bool (EXISTS now prefixedKey srv) with
  | Err err => Err (Wrap "failed to check existence: " err)
  | Ok exists_ => Ok exists_
  end.

(** [rc.Delete(keyStr)] *)
Definition Delete (rc : RedisCache) (now : Z) (keyStr : string) (srv : Server)
  : Server * option error :=
  let prefixedKey := prefixedKey rc keyStr in
  match DEL now prefixedKey srv with
  | (srv, Err err) => (srv, Some (Wrap "failed to delete cache: " err))
  | (srv, Ok _) => (srv, None)
  end.

(** [rc.Expire(keyStr, expiration)] *)
Definition Expire {minutes : MinutesConv} (rc : RedisCache) (now : Z) (keyStr : string)
    (expiration : Duration) (srv : Server) : Server * option error :=
  let prefixedKey := prefixedKey rc keyStr in
  match EXPIRE now prefixedKey (int_Minutes expiration) srv with
  | (srv, Err err) => (srv, Some (Wrap "failed to set expiration: " err))
  | (srv, Ok _) => (srv, None)
  end.

(** [rc.TTL(keyStr)]: [time.Duration(ttl) * time.Minute], an int64
    product *)
Definition TTL (rc : RedisCache) (now : Z) (keyStr : string) (srv : Server)
  : result Duration :=
  let prefixedKey := prefixedKey rc keyStr in
  match redis_Int (TTL_ now prefixedKey srv) with
  | Err err => Err (Wrap "failed to retrieve TTL: " err)
  | Ok ttl => Ok (int64 (ttl * Minute))
  end.

(** [rc.KeysWithBatchSize(batchSize, patternOrKey...)]: the body is
    [return nil, nil]. *)
Definition KeysWithBatchSize (rc : RedisCache) (batchSize : Z)
    (patternOrKey : list string) (srv : Server) : result (list string) :=
  Ok [].

End Redis.

(** Results of comparable values can be compared. *)
Global Instance result_eq_dec {A : Type} `{EqDecision A} : EqDecision (result A).
Proof. solve_decision. Defined.

(** ** A helper of the package *)

(** [contains(slice, item)] *)
Fixpoint contains (slice : list string) (item : string) : bool :=
  match slice with
  | [] => false
  | s :: rest => if decide (s = item) then true else contains rest item
  end.

(** ** A codec and a clock conversion to run the operations

    A stand-in for gob on string values: a one-entry map is written as
    the length of its key in one byte, the key, then the value.  The
    minutes of a duration are cut towards zero. *)

Module Toy.

Definition encode (m : gmap string string) : option string :=
  match map_to_list m with
  | [(k, v)] => Some (String (ascii_of_nat (String.length k)) (k +:+ v))
  | _ => None
  end.

Definition decode (data : string) : option (gmap string string) :=
  match data with
  | String n rest =>
      let n := nat_of_ascii n in
      Some {[ String.substring 0 n rest
              := String.substring n (String.length rest - n) rest ]}
  | EmptyString => None
  end.

Definition gob : Gob string := {| gob_Encode := encode; gob_Decode := decode |}.

Definition minutes : Redis.MinutesConv := λ d, d `quot` Minute.

End Toy.

(** A value is serializable under a namespaced key when gob encodes
    the one-entry map holding it and decodes the bytes back to that
    map. *)
Definition serializable {V : Type} {codec : Gob V} (prefixedKey : string) (value : V)
  : Prop :=
  ∃ encoded : string,
    gob_Encode {[ prefixedKey := value ]} = Some encoded
    ∧ gob_Decode encoded = Some {[ prefixedKey := value ]}.

(** ** A store larger than one deletion batch

    The 10001 keys "p:k0", "p:k1", ..., "p:k10000", none with an
    expiry: what instance "p" holds after [Set] of the keys "k0" to
    "k10000". *)
Definition over_one_batch : gmap string Badger.Item :=
  list_to_map ((λ i : Z, ("p:k" +:+ pretty i, Badger.mkItem "v" 0)) <$> seqZ 0 10001).

(** ** A small store

    Three live keys of instance "p", one of another instance, and one
    key that expired at second 1. *)
Definition small_store : gmap string Badger.Item :=
  {[ "p:test2" := Badger.mkItem "b" 0; "p:other" := Badger.mkItem "c" 0;
     "p:test1" := Badger.mkItem "a" 0; "q:test3" := Badger.mkItem "d" 0;
     "p:gone" := Badger.mkItem "e" 1 ]}.

(** * Properties *)

(** ** The wildcard matcher *)

Section matcher.
Import GoStrings.

Lemma Split_nonempty (s : string) (sep : ascii) : Split s sep ≠ [].
Proof. destruct s as [|c s]; simpl; [done|]. by case_decide. Qed.

Lemma Split_unfold (s : string) (sep : ascii) :
  Split s sep =
    before sep s :: (if Contains s sep then Split (after sep s) sep else []).
Proof.
  induction s as [|c s IH]; simpl; [done|].
  case_decide; [done|].
  rewrite IH. by destruct (Contains s sep).
Qed.

Lemma Split_parts (p : string) :
  Contains p star = true →
  ∃ more, Split p star = before star p :: before star (after star p) :: more.
Proof.
  intros Hc. rewrite (Split_unfold p), Hc, (Split_unfold (after star p)). eauto.
Qed.

Lemma matchWildcard_star_eq (s p : string) :
  Contains p star = true →
  matchWildcard s p =
    HasPrefix s (before star p)
    && (bool_decide (before star (after star p) = EmptyString)
        || HasSuffix s (before star (after star p))).
Proof.
  intros [more Hs]%Split_parts. unfold matchWildcard. rewrite Hs. simpl.
  destruct (HasPrefix s _); simpl; [|done].
  by destruct (bool_decide _), (HasSuffix s _).
Qed.

Lemma HasPrefix_empty (s : string) : HasPrefix s EmptyString = true.
Proof. by destruct s. Qed.

End matcher.

Example matchWildcard_ex1 : matchWildcard "test1" "test*" = true.
Proof. reflexivity. Qed.
Example matchWildcard_ex2 : matchWildcard "a.txt" "*.txt" = true.
Proof. reflexivity. Qed.
Example matchWildcard_ex3 : matchWildcard "abxc" "a*b*c" = false.
Proof. reflexivity. Qed.
Example matchWildcard_ex4 : matchWildcard "axb" "a*b*c" = true.
Proof. reflexivity. Qed.
Example matchWildcard_ex5 : matchWildcard "ab" "ab*b" = true.
Proof. reflexivity. Qed.

(** C8: the matcher agrees with the reference vectors: "abc" matches
    "abc", "abcdef" matches "abc*", "xabc" does not match "abc*", and
    every non-empty string matches "*". *)
Theorem matchWildcard_reference_vectors :
  matchWildcard "abc" "abc" = true
  ∧ matchWildcard "abcdef" "abc*" = true
  ∧ matchWildcard "xabc" "abc*" = false
  ∧ ∀ s : string, s ≠ EmptyString → matchWildcard s "*" = true.
Proof.
  split; [reflexivity|]. split; [reflexivity|]. split; [reflexivity|].
  intros s _. by rewrite matchWildcard_star_eq.
Qed.

Lemma matchWildcard_reference_vectors_witness :
  "anything" ≠ EmptyString ∧ matchWildcard "anything" "*" = true.
Proof.
  split; [discriminate|].
  apply (proj2 (proj2 (proj2 matchWildcard_reference_vectors))). discriminate.
Defined.

(** C10: for a pattern with at least one '*', the matcher answers true
    exactly when the string starts with the pattern text before the
    first '*' and, when the text between the first and second '*' is
    not empty, also ends with that text; two such patterns that agree up
    to their second '*' match the same strings; and "*" matches every
    string, the empty one included. *)
Theorem matchWildcard_star_semantics (s p : string) :
  GoStrings.Contains p star = true →
  (matchWildcard s p = true ↔
     GoStrings.HasPrefix s (GoStrings.before star p) = true
     ∧ (GoStrings.before star (GoStrings.after star p) ≠ EmptyString →
        GoStrings.HasSuffix s (GoStrings.before star (GoStrings.after star p)) = true))
  ∧ (∀ p' : string,
       GoStrings.Contains p' star = true →
       GoStrings.before star p' = GoStrings.before star p →
       GoStrings.before star (GoStrings.after star p')
         = GoStrings.before star (GoStrings.after star p) →
       matchWildcard s p' = matchWildcard s p)
  ∧ matchWildcard s "*" = true
  ∧ matchWildcard EmptyString "*" = true.
Proof.
  intros Hc. split; [|split; [|split]].
  - rewrite matchWildcard_star_eq by done.
    rewrite andb_true_iff, orb_true_iff, bool_decide_eq_true.
    split.
    + intros [? [?|?]]; (split; [done|]); [congruence|auto].
    + intros [? Hs]; split; [done|].
      destruct (decide (GoStrings.before star (GoStrings.after star p) = EmptyString));
        auto.
  - intros p' Hc' H1 H2. rewrite !matchWildcard_star_eq by done.
    by rewrite H1, H2.
  - by rewrite matchWildcard_star_eq.
  - reflexivity.
Qed.

Lemma matchWildcard_star_semantics_witness :
  matchWildcard "axb" "a*b*c" = matchWildcard "axb" "a*b*zzz"
  ∧ matchWildcard "axb" "a*b*c" = true.
Proof.
  pose proof (matchWildcard_star_semantics "axb" "a*b*zzz" eq_refl) as (H1 & H2 & _).
  split.
  - apply H2; reflexivity.
  - rewrite (H2 "a*b*c"); [|reflexivity..]. apply H1. split; [reflexivity|].
    intros _. reflexivity.
Defined.

(** ** Reads of an absent key *)

Section absent_reads.
Context {V : Type} {codec : Gob V}.

Lemma Badger_txn_Get_absent (now : Z) (db : Badger.DB) (key : string) :
  (db !! key = None
   ∨ ∃ item, db !! key = Some item ∧ Badger.expired now item = true) →
  Badger.txn_Get now db key = Err ErrKeyNotFound.
Proof.
  unfold Badger.txn_Get. intros [->|(item & -> & ->)]; done.
Qed.

Lemma Redis_find_absent (now : Z) (srv : Redis.Server) (key : string) :
  (srv !! key = None
   ∨ ∃ e, srv !! key = Some e ∧ Redis.live now e = false) →
  Redis.find now srv key = None.
Proof.
  unfold Redis.find. intros [->|(e & -> & ->)]; done.
Qed.

(** C5: for a key that is absent (never written, deleted, or expired),
    [Get] on the embedded backend returns the error "key not found" and
    no value, and [Get] on the remote backend returns no value and no
    error. *)
Theorem Get_miss_divergence
    (b : Badger.BadgerCache) (rc : Redis.RedisCache) (key : string)
    (now : Z) (db : Badger.DB) (now_r : Z) (srv : Redis.Server) :
  (db !! Badger.prefixedKey b key = None
   ∨ ∃ item, db !! Badger.prefixedKey b key = Some item
             ∧ Badger.expired now item = true) →
  (srv !! Redis.prefixedKey rc key = None
   ∨ ∃ e, srv !! Redis.prefixedKey rc key = Some e
          ∧ Redis.live now_r e = false) →
  Badger.Get (V := V) b now key db = Err (New "key not found")
  ∧ Redis.Get (V := V) rc now_r key srv = Ok None.
Proof.
  intros Hb Hr. split.
  - unfold Badger.Get, Badger.DBConn_View.
    by rewrite (Badger_txn_Get_absent _ _ _ Hb).
  - unfold Redis.Get, Redis.GET.
    by rewrite (Redis_find_absent _ _ _ Hr).
Qed.

End absent_reads.

Lemma Get_miss_divergence_witness :
  Badger.Get (codec := Toy.gob) {| Badger.Prefix := "p" |} (10 * Second) "k"
    {[ "p:k" := Badger.mkItem "x" 5 ]} = Err (New "key not found")
  ∧ Redis.Get (codec := Toy.gob) {| Redis.Prefix := "p" |} 0 "k" ∅ = Ok None.
Proof.
  apply (Get_miss_divergence (codec := Toy.gob)).
  - right. exists (Badger.mkItem "x" 5). split; [|reflexivity].
    apply lookup_singleton_eq.
  - left. apply lookup_empty.
Defined.

(** ** Writing, then reading *)

Section roundtrip.
Context {V : Type} {codec : Gob V} {minutes : Redis.MinutesConv}.

Lemma Badger_Set_Get (b : Badger.BadgerCache) (key : string) (value : V)
    (now now' : Z) (db : Badger.DB) :
  serializable (Badger.prefixedKey b key) value →
  ∃ db', Badger.Set_ b now key value [] db = (db', None)
         ∧ Badger.Get b now' key db' = Ok (Some value).
Proof.
  intros (encoded & Henc & Hdec).
  unfold Badger.Set_, Badger.DBConn_Update, encodeValue.
  rewrite insert_empty, Henc. simpl. eexists; split; [reflexivity|].
  unfold Badger.Get, Badger.DBConn_View, Badger.txn_Get, Badger.txn_SetEntry.
  rewrite lookup_insert_eq. simpl.
  unfold decodeValue. rewrite Hdec. by rewrite lookup_singleton_eq.
Qed.

Lemma Redis_Set_Get (rc : Redis.RedisCache) (key : string) (value : V)
    (now now' : Z) (srv : Redis.Server) :
  serializable (Redis.prefixedKey rc key) value →
  ∃ srv', Redis.Set_ rc now key value [] srv = (srv', None)
          ∧ Redis.Get rc now' key srv' = Ok (Some value).
Proof.
  intros (encoded & Henc & Hdec).
  unfold Redis.Set_, encodeValue.
  rewrite insert_empty, Henc. simpl. eexists; split; [reflexivity|].
  unfold Redis.Get, Redis.GET, Redis.find.
  rewrite lookup_insert_eq. simpl.
  unfold decodeValue. rewrite Hdec. by rewrite lookup_singleton_eq.
Qed.

(** C9: for a key and a value that is serializable under the key's
    namespaced form, [Set(k, v)] succeeds and a following [Get(k)] on
    the same instance returns [v], on the embedded backend and on the
    remote backend. *)
Theorem Set_Get_roundtrip
    (b : Badger.BadgerCache) (rc : Redis.RedisCache) (key : string) (value : V)
    (now now' : Z) (db : Badger.DB) (now_r now_r' : Z) (srv : Redis.Server) :
  serializable (Badger.prefixedKey b key) value →
  serializable (Redis.prefixedKey rc key) value →
  (∃ db', Badger.Set_ b now key value [] db = (db', None)
          ∧ Badger.Get b now' key db' = Ok (Some value))
  ∧ (∃ srv', Redis.Set_ rc now_r key value [] srv = (srv', None)
             ∧ Redis.Get rc now_r' key srv' = Ok (Some value)).
Proof. eauto using Badger_Set_Get, Redis_Set_Get. Qed.

End roundtrip.

Lemma Set_Get_roundtrip_witness :
  (∃ db', Badger.Set_ (codec := Toy.gob) {| Badger.Prefix := "p" |} 0 "k" "v" [] ∅
            = (db', None)
          ∧ Badger.Get (codec := Toy.gob) {| Badger.Prefix := "p" |} 7 "k" db'
            = Ok (Some "v"))
  ∧ (∃ srv', Redis.Set_ (codec := Toy.gob) (minutes := Toy.minutes)
               {| Redis.Prefix := "p" |} 0 "k" "v" [] ∅ = (srv', None)
             ∧ Redis.Get (codec := Toy.gob) {| Redis.Prefix := "p" |} 7 "k" srv'
               = Ok (Some "v")).
Proof.
  apply (Set_Get_roundtrip (codec := Toy.gob) (minutes := Toy.minutes)
           {| Badger.Prefix := "p" |} {| Redis.Prefix := "p" |} "k" "v");
    (exists (String (ascii_of_nat 3) "p:kv"); split; vm_compute; reflexivity).
Defined.

(** ** [Update] of an absent key *)

Section update_absent.
Context {V : Type} {codec : Gob V} {minutes : Redis.MinutesConv}.

(** The remote backend checks [EXISTS] first: on an absent key it
    reports "key ... does not exist" and leaves the server as it was. *)
Lemma Redis_Update_absent (rc : Redis.RedisCache) (now : Z) (key : string)
    (value : V) (expires : list Z) (srv : Redis.Server) :
  Redis.find now srv (Redis.prefixedKey rc key) = None →
  Redis.Update rc now key value expires srv
    = (srv, Some (New ("key " +:+ key +:+ " does not exist"))).
Proof. intros H. unfold Redis.Update, Redis.EXISTS. by rewrite H. Qed.

(** C2, on the code: the embedded backend's [Update] makes no existence
    check.  On an absent key, with a value gob encodes, it returns no
    error and writes the entry; without a TTL the key exists
    afterwards. *)
Theorem Badger_Update_absent_creates (b : Badger.BadgerCache) (now now' : Z)
    (key : string) (value : V) (encoded : string) (db : Badger.DB) :
  db !! Badger.prefixedKey b key = None →
  gob_Encode {[ Badger.prefixedKey b key := value ]} = Some encoded →
  (∀ expires, snd (Badger.Update b now key value expires db) = None)
  ∧ ∃ db', Badger.Update b now key value [] db = (db', None)
           ∧ db' !! Badger.prefixedKey b key = Some (Badger.NewEntry encoded)
           ∧ Badger.Exists b now' key db' = Ok true.
Proof.
  intros _ Henc. unfold Badger.Update, Badger.DBConn_Update, encodeValue.
  rewrite insert_empty, Henc. simpl. split; [done|].
  eexists; split; [reflexivity|]. unfold Badger.txn_SetEntry.
  rewrite lookup_insert_eq. split; [done|].
  unfold Badger.Exists, Badger.DBConn_View, Badger.txn_Get.
  by rewrite lookup_insert_eq.
Qed.

End update_absent.

Lemma Badger_Update_absent_creates_witness :
  ∃ db', Badger.Update (codec := Toy.gob) {| Badger.Prefix := "p" |} 0 "k" "v" [] ∅
           = (db', None)
         ∧ Badger.Exists {| Badger.Prefix := "p" |} 0 "k" db' = Ok true.
Proof.
  destruct (Badger_Update_absent_creates (codec := Toy.gob)
              {| Badger.Prefix := "p" |} 0 0 "k" "v"
              (String (ascii_of_nat 3) "p:kv") ∅)
    as (_ & db' & H1 & _ & H2).
  - apply lookup_empty.
  - vm_compute; reflexivity.
  - exists db'. split; assumption.
Defined.

(** ** [TTL] of a key without expiry *)

(** The embedded backend answers zero. *)
Lemma Badger_TTL_no_expiry (b : Badger.BadgerCache) (now : Z) (key : string)
    (db : Badger.DB) (item : Badger.Item) :
  db !! Badger.prefixedKey b key = Some item →
  Badger.ExpiresAt item = 0 →
  Badger.TTL b now key db = Ok 0.
Proof.
  intros Hk He. unfold Badger.TTL, Badger.DBConn_View, Badger.txn_Get, Badger.expired.
  rewrite Hk. rewrite decide_True by done. by rewrite He.
Qed.

(** C3, on the code: the remote backend hands on the server's [-1]
    (a key without expiry) as a count of minutes: [TTL] returns minus
    one minute, not zero. *)
Theorem Redis_TTL_no_expiry (rc : Redis.RedisCache) (now : Z) (key : string)
    (srv : Redis.Server) (e : Redis.Entry) :
  srv !! Redis.prefixedKey rc key = Some e →
  Redis.ExpireAt e = None →
  Redis.TTL rc now key srv = Ok (- Minute).
Proof.
  intros Hk He. unfold Redis.TTL, Redis.TTL_, Redis.find, Redis.live.
  rewrite Hk, He. simpl. by rewrite He.
Qed.

Lemma Redis_TTL_no_expiry_witness :
  Redis.TTL {| Redis.Prefix := "p" |} 0 "k"
    (fst (Redis.Set_ (codec := Toy.gob) (minutes := Toy.minutes)
            {| Redis.Prefix := "p" |} 0 "k" "v" [] ∅))
  = Ok (-60000000000).
Proof.
  apply (Redis_TTL_no_expiry {| Redis.Prefix := "p" |} 0 "k" _
           (Redis.mkEntry (String (ascii_of_nat 3) "p:kv") None));
    vm_compute; reflexivity.
Defined.

(** ** [Expire] *)

(** The embedded backend reads the key first: on an absent key it
    returns the store's not-found error and writes nothing. *)
Lemma Badger_Expire_absent (b : Badger.BadgerCache) (now : Z) (key : string)
    (expiration : Z) (db : Badger.DB) :
  (db !! Badger.prefixedKey b key = None
   ∨ ∃ item, db !! Badger.prefixedKey b key = Some item
             ∧ Badger.expired now item = true) →
  Badger.Expire b now key expiration db = (db, Some ErrKeyNotFound).
Proof.
  intros H. unfold Badger.Expire, Badger.DBConn_Update.
  by rewrite (Badger_txn_Get_absent _ _ _ H).
Qed.

(** On a live key it rewrites the entry in the same transaction: the
    value is the one read, the expiry is the new one, and no other key
    changes. *)
Lemma Badger_Expire_live (b : Badger.BadgerCache) (now : Z) (key : string)
    (expiration : Z) (db : Badger.DB) (item : Badger.Item) :
  db !! Badger.prefixedKey b key = Some item →
  Badger.expired now item = false →
  ∃ db', Badger.Expire b now key expiration db = (db', None)
         ∧ db' !! Badger.prefixedKey b key
           = Some (Badger.mkItem (Badger.Value item)
                     (((now + expiration) / Second) `mod` 2 ^ 64))
         ∧ ∀ other, other ≠ Badger.prefixedKey b key → db' !! other = db !! other.
Proof.
  intros Hk Hl. unfold Badger.Expire, Badger.DBConn_Update, Badger.txn_Get.
  rewrite Hk, Hl. eexists; split; [reflexivity|]. unfold Badger.txn_SetEntry.
  split; [by rewrite lookup_insert_eq|].
  intros other Hne. by rewrite lookup_insert_ne.
Qed.

(** C6, on the code: on the remote backend [EXPIRE] answers 0 for an
    absent key, which is no error reply, and the reply is dropped:
    [Expire] returns no error and leaves the server as it was. *)
Theorem Redis_Expire_absent_succeeds {minutes : Redis.MinutesConv}
    (rc : Redis.RedisCache) (now : Z) (key : string) (expiration : Z)
    (srv : Redis.Server) :
  (srv !! Redis.prefixedKey rc key = None
   ∨ ∃ e, srv !! Redis.prefixedKey rc key = Some e ∧ Redis.live now e = false) →
  Redis.Expire rc now key expiration srv = (srv, None).
Proof.
  intros H. unfold Redis.Expire, Redis.EXPIRE.
  by rewrite (Redis_find_absent _ _ _ H).
Qed.

Lemma Redis_Expire_absent_succeeds_witness :
  Redis.Expire (minutes := Toy.minutes) {| Redis.Prefix := "p" |} 0 "k"
    (5 * Minute) ∅ = (∅, None).
Proof.
  apply (Redis_Expire_absent_succeeds (minutes := Toy.minutes)).
  left. apply lookup_empty.
Defined.

(** ** [KeysWithBatchSize] on the remote backend *)

(** C4, on the code: the remote backend's [KeysWithBatchSize] is the
    body [return nil, nil]: whatever the batch size, the arguments and
    the keys on the server, it returns no key; so with the two live keys
    "p:a" and "p:b" and a batch size of 1 it returns none, not one. *)
Theorem Redis_KeysWithBatchSize_returns_nothing :
  (∀ (rc : Redis.RedisCache) (batchSize : Z) (patternOrKey : list string)
     (srv : Redis.Server),
     Redis.KeysWithBatchSize rc batchSize patternOrKey srv = Ok [])
  ∧ Redis.Exists {| Redis.Prefix := "p" |} 0 "a"
      {[ "p:a" := Redis.mkEntry "x" None; "p:b" := Redis.mkEntry "y" None ]}
    = Ok true
  ∧ Redis.Exists {| Redis.Prefix := "p" |} 0 "b"
      {[ "p:a" := Redis.mkEntry "x" None; "p:b" := Redis.mkEntry "y" None ]}
    = Ok true
  ∧ Redis.KeysWithBatchSize {| Redis.Prefix := "p" |} 1 []
      {[ "p:a" := Redis.mkEntry "x" None; "p:b" := Redis.mkEntry "y" None ]}
    = Ok [].
Proof. split; [done|]. repeat split; vm_compute; reflexivity. Qed.

(** ** [KeysWithBatchSize] on the embedded backend *)

Section batch.
Import Badger.

Lemma scan_all (q : string → bool) (it keys : list string) :
  scan q None it keys = keys ++ filter (λ key, q key) it.
Proof.
  revert keys. induction it as [|key rest IH]; intros keys; simpl.
  - by rewrite app_nil_r.
  - destruct (q key) eqn:Hq.
    + rewrite IH, filter_cons_True by (by apply Is_true_true).
      by rewrite <- app_assoc.
    + rewrite IH, filter_cons_False; [done|].
      intros ?%Is_true_true. congruence.
Qed.

Lemma scan_batch (q : string → bool) (n : Z) (it keys : list string) :
  Z.of_nat (length keys) < n →
  scan q (Some n) it keys = take (Z.to_nat n) (scan q None it keys).
Proof.
  revert keys. induction it as [|key rest IH]; intros keys Hlen; simpl.
  - rewrite take_ge; [done|lia].
  - destruct (q key) eqn:Hq; [|by apply IH].
    case_bool_decide as Hn.
    + rewrite scan_all, take_app_length'; [done|].
      rewrite length_app in *. simpl in *. lia.
    + apply IH. rewrite length_app in *. simpl in *. lia.
Qed.

Lemma each_key_all (b : BadgerCache) (now : Z) (txn : DB) (ks keys : list string) :
  ∃ found, each_key b now txn None ks keys = Ok (keys ++ found).
Proof.
  revert keys. induction ks as [|k rest IH]; intros keys; simpl.
  - exists []. by rewrite app_nil_r.
  - unfold txn_Get. destruct (txn !! prefixedKey b k) as [item|]; simpl; [|done].
    destruct (expired now item); simpl; [done|].
    destruct (IH (keys ++ [prefixedKey b k])) as [found ->].
    exists (prefixedKey b k :: found). by rewrite <- app_assoc.
Qed.

Lemma each_key_batch (b : BadgerCache) (now : Z) (txn : DB) (n : Z)
    (ks keys : list string) :
  Z.of_nat (length keys) < n →
  ∃ all, each_key b now txn None ks keys = Ok all
         ∧ each_key b now txn (Some n) ks keys = Ok (take (Z.to_nat n) all).
Proof.
  revert keys. induction ks as [|k rest IH]; intros keys Hlen; simpl.
  - exists keys. split; [done|]. rewrite take_ge; [done|lia].
  - unfold txn_Get. destruct (txn !! prefixedKey b k) as [item|]; simpl.
    + destruct (expired now item); simpl.
      * rewrite bool_decide_false by lia. by apply IH.
      * case_bool_decide as Hn.
        -- destruct (each_key_all b now txn rest (keys ++ [prefixedKey b k]))
             as [found Hall].
           eexists; split; [exact Hall|].
           rewrite take_app_length'; [done|].
           rewrite length_app in *. simpl in *. lia.
        -- apply IH. rewrite length_app in *. simpl in *. lia.
    + rewrite bool_decide_false by lia. by apply IH.
Qed.

(** For a positive batch size, [KeysWithBatchSize] returns the first
    [batchSize] keys of what [Keys] returns for the same arguments, in
    each of the three call shapes; a batch size of zero stands for
    1000. *)
Lemma Badger_KeysWithBatchSize_take (b : BadgerCache) (now : Z) (batchSize : Z)
    (patternOrKey : list string) (db : DB) :
  0 < batchSize →
  ∃ keys, Keys b now patternOrKey db = Ok keys
          ∧ KeysWithBatchSize b now batchSize patternOrKey db
            = Ok (take (Z.to_nat batchSize) keys).
Proof.
  intros Hpos. unfold Keys, KeysWithBatchSize, DBConn_View, keys_in_txn.
  rewrite decide_False by lia.
  assert (∀ key : string, take (Z.to_nat batchSize) [key] = [key]) as Hone.
  { intros key. rewrite take_ge; [done|]. simpl. lia. }
  destruct patternOrKey as [|pattern [|k2 rest]].
  - eexists; split; [done|]. by rewrite scan_batch by (simpl; lia).
  - destruct (Contains pattern star).
    + eexists; split; [done|]. by rewrite scan_batch by (simpl; lia).
    + unfold txn_Get. destruct (db !! _) as [item|]; simpl.
      * destruct (expired now item); simpl; eexists; (split; [done|]);
          by rewrite ?Hone, ?take_nil.
      * eexists; split; [done|]. by rewrite take_nil.
  - destruct (each_key_batch b now db batchSize (pattern :: k2 :: rest) [])
      as (all & -> & ->); [simpl; lia|]. eauto.
Qed.

Lemma Badger_KeysWithBatchSize_exact (b : BadgerCache) (now : Z) (batchSize : Z)
    (patternOrKey : list string) (db : DB) (keys : list string) :
  0 < batchSize →
  Keys b now patternOrKey db = Ok keys →
  batchSize < Z.of_nat (length keys) →
  ∃ batch, KeysWithBatchSize b now batchSize patternOrKey db = Ok batch
           ∧ Z.of_nat (length batch) = batchSize.
Proof.
  intros Hpos Hkeys Hmore.
  destruct (Badger_KeysWithBatchSize_take b now batchSize patternOrKey db Hpos)
    as (keys' & Hkeys' & ->).
  rewrite Hkeys in Hkeys'. injection Hkeys' as <-.
  eexists; split; [done|]. rewrite length_take. lia.
Qed.

Lemma Badger_KeysWithBatchSize_zero (b : BadgerCache) (now : Z)
    (patternOrKey : list string) (db : DB) :
  KeysWithBatchSize b now 0 patternOrKey db
  = KeysWithBatchSize b now 1000 patternOrKey db.
Proof. reflexivity. Qed.

(** The three call shapes on [small_store], in the iterator's order. *)
Example Keys_all :
  Badger.Keys {| Badger.Prefix := "p" |} (5 * Second) [] small_store
  = Ok ["p:other"; "p:test1"; "p:test2"].
Proof. vm_compute; reflexivity. Qed.

Example Keys_wildcard :
  Badger.Keys {| Badger.Prefix := "p" |} (5 * Second) ["test*"] small_store
  = Ok ["p:test1"; "p:test2"].
Proof. vm_compute; reflexivity. Qed.

Example Keys_exact :
  Badger.Keys {| Badger.Prefix := "p" |} (5 * Second) ["test1"; "gone"; "other"]
    small_store
  = Ok ["p:test1"; "p:other"].
Proof. vm_compute; reflexivity. Qed.

Example KeysWithBatchSize_two :
  Badger.KeysWithBatchSize {| Badger.Prefix := "p" |} (5 * Second) 2 [] small_store
  = Ok ["p:other"; "p:test1"].
Proof. vm_compute; reflexivity. Qed.

End batch.

(** ** Namespaces *)

Section namespaces.
Import Badger.

Lemma append_nil (t : string) : EmptyString +:+ t = t.
Proof. reflexivity. Qed.

Lemma append_cons (c : ascii) (s t : string) : String c s +:+ t = String c (s +:+ t).
Proof. reflexivity. Qed.

Lemma namespaces_disjoint (p1 p2 rest : string) :
  p1 ≠ p2 →
  HasPrefix p2 (p1 +:+ ":") = false →
  HasPrefix p1 (p2 +:+ ":") = false →
  HasPrefix (p2 +:+ ":" +:+ rest) (p1 +:+ ":") = false.
Proof.
  revert p2. induction p1 as [|c p1 IH]; intros [|c2 p2] Hne H21 H12;
    rewrite ?append_nil, ?append_cons in *; simpl in *.
  - done.
  - done.
  - destruct (decide (":"%char = c)) as [<-|]; [|done].
    by rewrite decide_True in H12.
  - destruct (decide (c2 = c)) as [->|]; [|done].
    rewrite decide_True in H12 by done. apply IH; [congruence|done..].
Qed.
End namespaces.

(** [Keys()] returns only keys that start with the instance's prefix
    and a colon. *)
Lemma Badger_Keys_prefixed (b : Badger.BadgerCache) (now : Z) (db : Badger.DB)
    (keys : list string) (key : string) :
  Badger.Keys b now [] db = Ok keys →
  key ∈ keys →
  GoStrings.HasPrefix key (Badger.Prefix b +:+ ":") = true.
Proof.
  unfold Badger.Keys, Badger.DBConn_View, Badger.keys_in_txn.
  rewrite scan_all. simpl. intros [= <-] [Hq _]%list_elem_of_filter.
  by apply Is_true_true.
Qed.

(** C7, as the code has it: on the embedded backend, for two instances
    over one store whose prefixes differ and of which neither prefix
    followed by a colon is a string prefix of the other prefix, a key
    written through one instance is not in what [Keys()] returns
    through the other, in either direction. *)
Theorem Badger_Keys_isolation {V : Type} {codec : Gob V}
    (p1 p2 : string) (now now' : Z) (key : string) (value : V)
    (expires : list Z) (db : Badger.DB) (keys : list string) :
  p1 ≠ p2 →
  GoStrings.HasPrefix p2 (p1 +:+ ":") = false →
  GoStrings.HasPrefix p1 (p2 +:+ ":") = false →
  (Badger.Keys {| Badger.Prefix := p1 |} now' []
     (fst (Badger.Set_ {| Badger.Prefix := p2 |} now key value expires db))
     = Ok keys →
   Badger.prefixedKey {| Badger.Prefix := p2 |} key ∉ keys)
  ∧ (Badger.Keys {| Badger.Prefix := p2 |} now' []
       (fst (Badger.Set_ {| Badger.Prefix := p1 |} now key value expires db))
       = Ok keys →
     Badger.prefixedKey {| Badger.Prefix := p1 |} key ∉ keys).
Proof.
  intros Hne H21 H12. split; intros Hkeys Hin;
    apply (Badger_Keys_prefixed _ _ _ _ _ Hkeys) in Hin;
    unfold Badger.prefixedKey in Hin; simpl in Hin.
  - by rewrite namespaces_disjoint in Hin.
  - by rewrite namespaces_disjoint in Hin.
Qed.

Lemma Badger_Keys_isolation_witness :
  Badger.Keys {| Badger.Prefix := "a" |} 0 []
    (fst (Badger.Set_ (codec := Toy.gob) {| Badger.Prefix := "ab" |} 0 "x" "v" [] ∅))
  = Ok []
  ∧ "ab:x" ∉ ([] : list string).
Proof.
  assert (Badger.Keys {| Badger.Prefix := "a" |} 0 []
            (fst (Badger.Set_ (codec := Toy.gob) {| Badger.Prefix := "ab" |} 0
                    "x" "v" [] ∅)) = Ok []) as H by (vm_compute; reflexivity).
  split; [exact H|].
  apply (proj1 (Badger_Keys_isolation (codec := Toy.gob) "a" "ab" 0 0 "x" "v" [] ∅ []
                  ltac:(discriminate) eq_refl eq_refl)).
  exact H.
Defined.

(** C7, as stated, fails: with the prefixes "a" and "a:b" over one
    store, the key the second instance writes for "x" is "a:b:x", and
    the first instance's [Keys()] returns it. *)
Lemma Keys_isolation_counterexample :
  "a" ≠ "a:b"
  ∧ snd (Badger.Set_ (codec := Toy.gob) {| Badger.Prefix := "a:b" |} 0 "x" "v" [] ∅)
    = None
  ∧ Badger.prefixedKey {| Badger.Prefix := "a:b" |} "x" = "a:b:x"
  ∧ Badger.Keys {| Badger.Prefix := "a" |} 0 []
      (fst (Badger.Set_ (codec := Toy.gob) {| Badger.Prefix := "a:b" |} 0 "x" "v" [] ∅))
    = Ok ["a:b:x"].
Proof. split; [discriminate|]. repeat split; vm_compute; reflexivity. Qed.

(** ** Bulk deletion on the embedded backend *)

Section bulk_deletion.
Import Badger.

Lemma delete_loop_bound (pattern prefix : string) (n : Z) (it : list string)
    (txn : DB) (deleted : Z) :
  deleted < n →
  (delete_loop pattern prefix n it txn deleted).1 ⊆ txn
  ∧ Z.of_nat (size txn)
    ≤ Z.of_nat (size (delete_loop pattern prefix n it txn deleted).1) + (n - deleted).
Proof.
  revert txn deleted. induction it as [|key rest IH]; intros txn deleted Hlt; simpl.
  - split; [done|lia].
  - destruct (HasPrefix key prefix); simpl; [|split; [done|lia]].
    destruct (Contains pattern star && negb (matchWildcard key pattern)).
    { by apply IH. }
    assert (Z.of_nat (size txn) ≤ Z.of_nat (size (txn_Delete key txn)) + 1) as Hsize.
    { unfold txn_Delete. rewrite map_size_delete.
      destruct (txn !! key); simpl; lia. }
    assert (txn_Delete key txn ⊆ txn) as Hsub by apply delete_subseteq.
    case_bool_decide as Hn; simpl.
    + split; [done|lia].
    + destruct (IH (txn_Delete key txn) (deleted + 1)) as [Hs Hb]; [lia|].
      split; [by etrans|lia].
Qed.

(** With no conflict, [EmptyByMatch] commits one transaction and
    returns: it removes keys only, and at most 10000 of them. *)
Lemma EmptyByMatch_one_batch (b : BadgerCache) (now : Z) (pattern : string) (db : DB) :
  ∃ db', EmptyByMatch b now [] pattern db = (db', None)
         ∧ db' ⊆ db
         ∧ Z.of_nat (size db) ≤ Z.of_nat (size db') + 10000.
Proof.
  unfold EmptyByMatch, emptyWithRetries.
  change (Z.to_nat 3) with 3%nat. simpl.
  unfold DBConn_Update, deleteKeysMatchingPattern.
  match goal with
  | |- context [delete_loop ?p ?q ?n ?it ?t ?d] =>
      pose proof (delete_loop_bound p q n it t d ltac:(lia)) as [Hs Hb];
      destruct (delete_loop p q n it t d) as [txn deleted]
  end.
  simpl in *. exists txn.
  split; [by destruct (decide (deleted = 0))|]. split; [done|lia].
Qed.

Lemma over_one_batch_size : size over_one_batch = Z.to_nat 10001.
Proof.
  unfold over_one_batch. rewrite map_size_list_to_map.
  - by rewrite length_fmap, length_seqZ.
  - rewrite <- list_fmap_compose. apply NoDup_fmap_2; [|apply NoDup_seqZ].
    intros i j Hij. simpl in Hij. by simplify_eq.
Qed.

Lemma over_one_batch_keys (key : string) (item : Item) :
  over_one_batch !! key = Some item →
  expired 0 item = false
  ∧ HasPrefix key "p:" = true
  ∧ matchWildcard (TrimPrefix key "p:") "k*" = true.
Proof.
  unfold over_one_batch. intros H%elem_of_list_to_map_2.
  apply list_elem_of_fmap in H as (i & [= -> ->] & _).
  repeat split; reflexivity.
Qed.

End bulk_deletion.

(** The pattern reaches the deletion loop cut at its first '*': the
    text after it plays no part, and keys that do not match go too. *)
Example EmptyByMatch_ignores_suffix :
  matchWildcard "ac" "a*b" = false
  ∧ Badger.EmptyByMatch {| Badger.Prefix := "p" |} 0 [] "a*b"
      {[ "p:ab" := Badger.mkItem "x" 0; "p:ac" := Badger.mkItem "y" 0 ]}
    = (∅, None).
Proof. split; vm_compute; reflexivity. Qed.

(** Three conflicts in a row use up the retries. *)
Example EmptyByMatch_too_many_retries :
  Badger.EmptyByMatch {| Badger.Prefix := "p" |} 0 [true; true; true] "a*"
    {[ "p:ab" := Badger.mkItem "x" 0 ]}
  = ({[ "p:ab" := Badger.mkItem "x" 0 ]},
     Some (Newf "failed to empty keys after %d retries" 3)).
Proof. vm_compute; reflexivity. Qed.

(** C1, on the code: with 10001 keys that match "k*" under the prefix,
    [EmptyByMatch("k*")] returns no error after its one round of at most
    10000 deletions, and a live key under the prefix whose trimmed name
    matches the pattern is still in the store. *)
Theorem EmptyByMatch_leaves_matching_key :
  ∃ db', Badger.EmptyByMatch {| Badger.Prefix := "p" |} 0 [] "k*" over_one_batch
           = (db', None)
         ∧ ∃ (key : string) (item : Badger.Item),
             db' !! key = Some item
             ∧ Badger.expired 0 item = false
             ∧ GoStrings.HasPrefix key "p:" = true
             ∧ matchWildcard (GoStrings.TrimPrefix key "p:") "k*" = true.
Proof.
  destruct (EmptyByMatch_one_batch {| Badger.Prefix := "p" |} 0 "k*" over_one_batch)
    as (db' & Hrun & Hsub & Hsize).
  exists db'. split; [done|].
  rewrite over_one_batch_size in Hsize.
  destruct (map_choose db') as (key & item & Hkey).
  { intros ->. rewrite map_size_empty in Hsize. lia. }
  exists key, item. split; [done|].
  apply over_one_batch_keys. by eapply lookup_weaken.
Qed.

(** * Further properties of the package *)

(** ** The helper [contains] *)

(** X1: [contains] answers true exactly for the members of the slice. *)
Theorem contains_elem_of (slice : list string) (item : string) :
  contains slice item = true ↔ item ∈ slice.
Proof.
  induction slice as [|s rest IH]; simpl.
  - split; [done|]. by intros ?%elem_of_nil.
  - rewrite elem_of_cons. case_decide as Hs.
    + split; [intros _; by left|done].
    + rewrite IH. split; [by right|]. intros [->|?]; [done|done].
Qed.

(** ** The forms of a wildcard pattern *)

Section pattern_forms.
Import GoStrings.

Lemma Split_no_sep (s : string) (sep : ascii) :
  Contains s sep = false → Split s sep = [s].
Proof.
  induction s as [|c s IH]; simpl; [done|].
  case_decide; [done|]. intros Hc. by rewrite (IH Hc).
Qed.

Lemma before_app (sep : ascii) (s t : string) :
  Contains s sep = false → before sep (s +:+ String sep t) = s.
Proof.
  induction s as [|c s IH]; rewrite ?append_nil, ?append_cons; simpl.
  - by rewrite decide_True.
  - case_decide; [done|]. intros Hc. by rewrite (IH Hc).
Qed.

Lemma after_app (sep : ascii) (s t : string) :
  Contains s sep = false → after sep (s +:+ String sep t) = t.
Proof.
  induction s as [|c s IH]; rewrite ?append_nil, ?append_cons; simpl.
  - by rewrite decide_True.
  - case_decide; [done|]. intros Hc. by rewrite (IH Hc).
Qed.

Lemma Contains_app (sep : ascii) (s t : string) :
  Contains (s +:+ String sep t) sep = true.
Proof.
  induction s as [|c s IH]; rewrite ?append_nil, ?append_cons; simpl.
  - by rewrite decide_True.
  - by case_decide.
Qed.

Lemma before_no_sep (sep : ascii) (s : string) :
  Contains s sep = false → before sep s = s.
Proof.
  induction s as [|c s IH]; simpl; [done|].
  case_decide; [done|]. intros Hc. by rewrite (IH Hc).
Qed.

(** X2: a pattern without '*' matches its own text only; "pre*"
    matches the strings that start with [pre]; "*suf" with a non-empty
    [suf] matches the strings that end with [suf]; "pre*suf" matches the
    strings that start with [pre] and end with [suf]. *)
Theorem matchWildcard_forms (str pre suf : string) :
  Contains pre star = false →
  Contains suf star = false →
  matchWildcard str pre = bool_decide (str = pre)
  ∧ matchWildcard str (pre +:+ "*") = HasPrefix str pre
  ∧ (suf ≠ EmptyString → matchWildcard str ("*" +:+ suf) = HasSuffix str suf)
  ∧ (suf ≠ EmptyString →
     matchWildcard str (pre +:+ "*" +:+ suf) = HasPrefix str pre && HasSuffix str suf).
Proof.
  intros Hpre Hsuf.
  assert (∀ p, p ≠ EmptyString →
            matchWildcard str (pre +:+ String star p)
            = HasPrefix str pre
              && (bool_decide (before star p = EmptyString)
                  || HasSuffix str (before star p))) as Hgen.
  { intros p _. rewrite matchWildcard_star_eq by apply Contains_app.
    by rewrite before_app, after_app. }
  split; [|split; [|split]].
  - unfold matchWildcard. by rewrite Split_no_sep.
  - rewrite matchWildcard_star_eq by apply Contains_app.
    rewrite before_app, after_app by done. simpl.
    by rewrite andb_true_r.
  - intros Hne. rewrite (matchWildcard_star_eq str ("*" +:+ suf)) by done.
    change (before star ("*" +:+ suf)) with EmptyString.
    change (after star ("*" +:+ suf)) with suf.
    rewrite before_no_sep by done. simpl.
    by rewrite bool_decide_false.
  - intros Hne. change (pre +:+ "*" +:+ suf) with (pre +:+ String star suf).
    rewrite Hgen by done. rewrite before_no_sep by done.
    by rewrite bool_decide_false.
Qed.

End pattern_forms.

Lemma matchWildcard_forms_witness :
  matchWildcard "report.txt" "rep*.txt"
  = GoStrings.HasPrefix "report.txt" "rep" && GoStrings.HasSuffix "report.txt" ".txt".
Proof.
  apply (proj2 (proj2 (proj2
           (matchWildcard_forms "report.txt" "rep" ".txt" eq_refl eq_refl)))).
  discriminate.
Defined.

(** ** Single keys on the embedded backend *)

Section badger_single_key.
Context {V : Type} {codec : Gob V}.
Import Badger.

Lemma prefixedKey_inj (b : BadgerCache) (k1 k2 : string) :
  prefixedKey b k1 = prefixedKey b k2 → k1 = k2.
Proof.
  unfold prefixedKey. intros H%(inj (String.append _)).
  by apply (inj (String.append ":")) in H.
Qed.

(** [Get] reads one entry of the store and nothing else. *)
Lemma Get_ext (b : BadgerCache) (now : Z) (key : string) (db1 db2 : DB) :
  db1 !! prefixedKey b key = db2 !! prefixedKey b key →
  Get (V := V) b now key db1 = Get b now key db2.
Proof.
  intros H. unfold Get, DBConn_View, txn_Get. by rewrite H.
Qed.

(** X3: [Delete] returns no error whether or not the key is there;
    afterwards [Exists] is false and [Get] reports "key not found",
    every other key keeps its entry, and a second [Delete] changes
    nothing. *)
Theorem Badger_Delete_removes (b : BadgerCache) (now : Z) (key : string) (db : DB) :
  ∃ db', Delete b key db = (db', None)
         ∧ Exists b now key db' = Ok false
         ∧ Get (V := V) b now key db' = Err (New "key not found")
         ∧ (∀ other, other ≠ prefixedKey b key → db' !! other = db !! other)
         ∧ Delete b key db' = (db', None).
Proof.
  unfold Delete, DBConn_Update, txn_Delete. eexists; split; [reflexivity|].
  repeat split.
  - unfold Exists, DBConn_View, txn_Get. by rewrite lookup_delete_eq.
  - unfold Get, DBConn_View, txn_Get. by rewrite lookup_delete_eq.
  - intros other Hne. by rewrite lookup_delete_ne.
  - by rewrite delete_delete_eq.
Qed.

(** X4: [Set] overwrites: after two [Set]s of one key, [Get] returns
    the second value, whatever TTL the first one carried; [Get] of any
    other key of the instance answers as before the two writes. *)
Theorem Badger_Set_overwrites (b : BadgerCache) (now1 now2 now' : Z) (key : string)
    (v1 v2 : V) (expires1 : list Z) (db : DB) :
  serializable (prefixedKey b key) v1 →
  serializable (prefixedKey b key) v2 →
  ∃ db1 db2,
    Set_ b now1 key v1 expires1 db = (db1, None)
    ∧ Set_ b now2 key v2 [] db1 = (db2, None)
    ∧ Get b now' key db2 = Ok (Some v2)
    ∧ ∀ other, other ≠ key → Get (V := V) b now' other db2 = Get b now' other db.
Proof.
  intros (e1 & Henc1 & _) (e2 & Henc2 & Hdec2).
  unfold Set_, DBConn_Update, encodeValue.
  rewrite !insert_empty, Henc1, Henc2. simpl.
  eexists _, _. split; [reflexivity|]. split; [reflexivity|].
  unfold txn_SetEntry. split.
  - unfold Get, DBConn_View, txn_Get. rewrite lookup_insert_eq. simpl.
    unfold decodeValue. rewrite Hdec2. by rewrite lookup_singleton_eq.
  - intros other Hne. apply Get_ext.
    assert (prefixedKey b key ≠ prefixedKey b other) as Hpk.
    { intros Heq%prefixedKey_inj. done. }
    by rewrite !lookup_insert_ne.
Qed.

(** A value that gob cannot encode is not written: [Set] returns the
    encoding error and the store is as before. *)
Lemma Badger_Set_unencodable (b : BadgerCache) (now : Z) (key : string) (value : V)
    (expires : list Z) (db : DB) :
  gob_Encode {[ prefixedKey b key := value ]} = None →
  Set_ b now key value expires db
  = (db, Some (Wrap "failed to encode value: "
                 (Wrap "failed to encode value: " ErrGob))).
Proof.
  intros Henc. unfold Set_, DBConn_Update, encodeValue.
  by rewrite insert_empty, Henc.
Qed.

End badger_single_key.

Lemma Badger_Set_overwrites_witness :
  ∃ db1 db2,
    Badger.Set_ (codec := Toy.gob) {| Badger.Prefix := "p" |} 0 "k" "v" [5 * Minute] ∅
      = (db1, None)
    ∧ Badger.Set_ (codec := Toy.gob) {| Badger.Prefix := "p" |} 1 "k" "w" [] db1
      = (db2, None)
    ∧ Badger.Get (codec := Toy.gob) {| Badger.Prefix := "p" |} 2 "k" db2 = Ok (Some "w").
Proof.
  destruct (Badger_Set_overwrites (codec := Toy.gob) {| Badger.Prefix := "p" |}
              0 1 2 "k" "v" "w" [5 * Minute] ∅) as (db1 & db2 & H1 & H2 & H3 & _).
  - exists (String (ascii_of_nat 3) "p:kv"); split; vm_compute; reflexivity.
  - exists (String (ascii_of_nat 3) "p:kw"); split; vm_compute; reflexivity.
  - exists db1, db2. auto.
Defined.

Lemma Badger_Set_unencodable_witness :
  Badger.Set_
    (codec := {| gob_Encode := λ _ : gmap string string, None;
                 gob_Decode := λ _, None |})
    {| Badger.Prefix := "p" |} 0 "k" "v" [] ∅
  = (∅, Some (Wrap "failed to encode value: "
                (Wrap "failed to encode value: " ErrGob))).
Proof. apply Badger_Set_unencodable. reflexivity. Defined.

(** ** Expiry on the embedded backend *)

Section badger_expiry.
Context {V : Type} {codec : Gob V}.
Import Badger.

(** The expiry [Set], [Update], [Expire] and [RefreshTTL] store for a
    TTL, inside the range of the clock. *)
Lemma WithTTL_in_range (now d : Z) (e : Item) :
  Second ≤ now + d → now + d < 2 ^ 62 →
  ExpiresAt (WithTTL now e d) = Unix (now + d)
  ∧ 0 < Unix (now + d) < 2 ^ 62.
Proof.
  intros Hlo Hhi. unfold WithTTL, Unix, Second in *. simpl.
  change (2 ^ 64) with 18446744073709551616.
  change (2 ^ 62) with 4611686018427387904 in *.
  Z.to_euclidean_division_equations. lia.
Qed.

Lemma expired_in_range (now : Z) (item : Item) :
  0 ≤ now → now < 2 ^ 62 → 0 < ExpiresAt item →
  expired now item = bool_decide (ExpiresAt item ≤ Unix now).
Proof.
  intros Hlo Hhi Hpos. unfold expired. rewrite decide_False by lia.
  assert (Unix now `mod` 2 ^ 64 = Unix now) as ->; [|done].
  unfold Unix, Second. change (2 ^ 64) with 18446744073709551616.
  change (2 ^ 62) with 4611686018427387904 in *.
  Z.to_euclidean_division_equations. lia.
Qed.

(** X5: a key written with a TTL exists exactly while the clock's
    count of whole seconds is below that of the writing time plus the
    TTL; in particular it is gone once the TTL has elapsed. *)
Theorem Badger_Exists_after_Set (b : BadgerCache) (now now' d : Z) (key : string)
    (value : V) (db : DB) :
  serializable (prefixedKey b key) value →
  Second ≤ now + d → now + d < 2 ^ 62 →
  0 ≤ now' → now' < 2 ^ 62 →
  ∃ db', Set_ b now key value [d] db = (db', None)
         ∧ Exists b now' key db' = Ok (bool_decide (Unix now' < Unix (now + d)))
         ∧ (now + d ≤ now' → Exists b now' key db' = Ok false).
Proof.
  intros (enc & Henc & _) Hlo Hhi Hlo' Hhi'.
  unfold Set_, DBConn_Update, encodeValue. rewrite insert_empty, Henc. simpl.
  eexists; split; [reflexivity|].
  destruct (WithTTL_in_range now d (NewEntry enc) Hlo Hhi) as [HE Hr].
  assert (Exists b now' key
            (txn_SetEntry (prefixedKey b key) (WithTTL now (NewEntry enc) d) db)
          = Ok (bool_decide (Unix now' < Unix (now + d)))) as Hex.
  { unfold Exists, DBConn_View, txn_Get, txn_SetEntry.
    rewrite lookup_insert_eq, expired_in_range by lia. rewrite HE.
    case_bool_decide; simpl.
    - by rewrite bool_decide_false by lia.
    - by rewrite bool_decide_true by lia. }
  split; [done|]. intros Hel. rewrite Hex. rewrite bool_decide_false; [done|].
  unfold Unix, Second. Z.to_euclidean_division_equations. lia.
Qed.

(** X6: while such a key exists, [TTL] returns a positive duration that
    is at most what is left of the TTL. *)
Theorem Badger_TTL_after_Set (b : BadgerCache) (now now' d : Z) (key : string)
    (value : V) (db : DB) :
  serializable (prefixedKey b key) value →
  now + d < 2 ^ 62 → 0 ≤ now' →
  Unix now' < Unix (now + d) →
  ∃ db' ttl, Set_ b now key value [d] db = (db', None)
             ∧ TTL b now' key db' = Ok ttl
             ∧ 0 < ttl ≤ now + d - now'.
Proof.
  intros (enc & Henc & _) Hhi Hlo' Hlive.
  assert (Second ≤ now + d ∧ now' < 2 ^ 62) as [Hlo Hhi'].
  { unfold Unix, Second in *. change (2 ^ 62) with 4611686018427387904 in *.
    Z.to_euclidean_division_equations. lia. }
  unfold Set_, DBConn_Update, encodeValue. rewrite insert_empty, Henc. simpl.
  destruct (WithTTL_in_range now d (NewEntry enc) Hlo Hhi) as [HE Hr].
  eexists _, _. split; [reflexivity|].
  unfold TTL, DBConn_View, txn_Get, txn_SetEntry.
  rewrite lookup_insert_eq, expired_in_range by lia. rewrite HE.
  rewrite bool_decide_false by lia. rewrite bool_decide_true by lia.
  split; [reflexivity|].
  unfold saturate, int64, Unix, Second in *.
  change (2 ^ 64) with 18446744073709551616.
  change (2 ^ 63) with 9223372036854775808.
  change (2 ^ 62) with 4611686018427387904 in *.
  Z.to_euclidean_division_equations. lia.
Qed.

End badger_expiry.

Lemma Badger_Exists_after_Set_witness :
  ∃ db', Badger.Set_ (codec := Toy.gob) {| Badger.Prefix := "p" |} (10 * Second)
           "k" "v" [5 * Minute] ∅ = (db', None)
         ∧ Badger.Exists {| Badger.Prefix := "p" |} (310 * Second) "k" db' = Ok false.
Proof.
  destruct (Badger_Exists_after_Set (codec := Toy.gob) {| Badger.Prefix := "p" |}
              (10 * Second) (310 * Second) (5 * Minute) "k" "v" ∅)
    as (db' & H1 & _ & H3).
  - exists (String (ascii_of_nat 3) "p:kv"); split; vm_compute; reflexivity.
  - vm_compute; discriminate.
  - vm_compute; reflexivity.
  - vm_compute; discriminate.
  - vm_compute; reflexivity.
  - exists db'. split; [exact H1|]. apply H3. vm_compute; discriminate.
Defined.

Lemma Badger_TTL_after_Set_witness :
  ∃ db' ttl, Badger.Set_ (codec := Toy.gob) {| Badger.Prefix := "p" |} (10 * Second)
               "k" "v" [5 * Minute] ∅ = (db', None)
             ∧ Badger.TTL {| Badger.Prefix := "p" |} (11 * Second) "k" db' = Ok ttl
             ∧ 0 < ttl ≤ 10 * Second + 5 * Minute - 11 * Second.
Proof.
  apply (Badger_TTL_after_Set (codec := Toy.gob) {| Badger.Prefix := "p" |}
           (10 * Second) (11 * Second) (5 * Minute) "k" "v" ∅).
  - exists (String (ascii_of_nat 3) "p:kv"); split; vm_compute; reflexivity.
  - vm_compute; reflexivity.
  - vm_compute; discriminate.
  - vm_compute; reflexivity.
Defined.

Section badger_expire.
Context {V : Type} {codec : Gob V}.
Import Badger.

(** X7: [Expire] on a live key changes the expiry only: when the new
    expiry lies ahead, [Get] returns afterwards what it returned before,
    and [Get] of every other key is unaffected; [RefreshTTL] does the
    same as [Expire]. *)
Theorem Badger_Expire_keeps_value (b : BadgerCache) (now now' d : Z) (key : string)
    (db : DB) (item : Item) :
  db !! prefixedKey b key = Some item →
  expired now item = false →
  Second ≤ now + d → now + d < 2 ^ 62 →
  0 ≤ now' → Unix now' < Unix (now + d) →
  ∃ db', Expire b now key d db = (db', None)
         ∧ RefreshTTL b now key d db = (db', None)
         ∧ Get (V := V) b now' key db' = Get b now key db
         ∧ ∀ other, other ≠ key → Get (V := V) b now' other db' = Get b now' other db.
Proof.
  intros Hk Hlive Hlo Hhi Hlo' Hahead.
  assert (now' < 2 ^ 62) as Hhi'.
  { unfold Unix, Second in *. change (2 ^ 62) with 4611686018427387904 in *.
    Z.to_euclidean_division_equations. lia. }
  unfold Expire, RefreshTTL, DBConn_Update, txn_Get. rewrite Hk, Hlive.
  eexists; split; [reflexivity|]. split; [reflexivity|].
  destruct (WithTTL_in_range now d (NewEntry (Value item)) Hlo Hhi) as [HE Hr].
  unfold txn_SetEntry. split.
  - unfold Get, DBConn_View, txn_Get.
    rewrite lookup_insert_eq, Hk, Hlive, expired_in_range by lia.
    rewrite HE. by rewrite bool_decide_false by lia.
  - intros other Hne. apply Get_ext. rewrite lookup_insert_ne; [done|].
    by intros ?%prefixedKey_inj.
Qed.

End badger_expire.

Lemma Badger_Expire_keeps_value_witness :
  ∃ db', Badger.Expire {| Badger.Prefix := "p" |} (10 * Second) "k" (2 * Minute)
           {[ "p:k" := Badger.mkItem (String (ascii_of_nat 3) "p:kv") 0 ]}
         = (db', None)
         ∧ Badger.Get (codec := Toy.gob) {| Badger.Prefix := "p" |} (60 * Second) "k" db'
           = Ok (Some "v").
Proof.
  destruct (Badger_Expire_keeps_value (codec := Toy.gob) {| Badger.Prefix := "p" |}
              (10 * Second) (60 * Second) (2 * Minute) "k"
              {[ "p:k" := Badger.mkItem (String (ascii_of_nat 3) "p:kv") 0 ]}
              (Badger.mkItem (String (ascii_of_nat 3) "p:kv") 0))
    as (db' & H1 & _ & H3 & _).
  - vm_compute; reflexivity.
  - vm_compute; reflexivity.
  - vm_compute; discriminate.
  - vm_compute; reflexivity.
  - vm_compute; discriminate.
  - vm_compute; reflexivity.
  - exists db'. split; [exact H1|]. rewrite H3. vm_compute; reflexivity.
Defined.

(** ** What [Keys] returns on the embedded backend *)

Section badger_keys.
Import Badger.

Lemma elem_of_iterator (now : Z) (db : DB) (key : string) :
  key ∈ iterator now db
  ↔ ∃ item, db !! key = Some item ∧ expired now item = false.
Proof.
  unfold iterator. rewrite merge_sort_Permutation, list_elem_of_fmap. split.
  - intros ([k item] & Hkey & Hf). apply list_elem_of_filter in Hf as [Hl Hin].
    apply elem_of_map_to_list in Hin. simpl in *. subst. eauto.
  - intros (item & Hk & Hl). exists (key, item). split; [done|].
    apply list_elem_of_filter. split; [done|]. by apply elem_of_map_to_list.
Qed.

Lemma NoDup_iterator (now : Z) (db : DB) : NoDup (iterator now db).
Proof.
  unfold iterator. rewrite merge_sort_Permutation.
  eapply sublist_NoDup; [apply (NoDup_fst_map_to_list db)|].
  apply fmap_sublist, sublist_filter.
Qed.

Lemma StronglySorted_iterator (now : Z) (db : DB) :
  StronglySorted String.le (iterator now db).
Proof. apply (StronglySorted_merge_sort _). Qed.

Lemma StronglySorted_filter {A} (R : relation A) (P : A → Prop)
    `{!∀ x, Decision (P x)} (l : list A) :
  StronglySorted R l → StronglySorted R (filter P l).
Proof.
  induction 1 as [|x l Hl IH Hx]; [constructor|].
  rewrite filter_cons. case_decide; [|done].
  constructor; [done|]. rewrite Forall_forall in *.
  intros y [_ Hy]%list_elem_of_filter. auto.
Qed.

(** X8: [Keys()] returns the live keys of the store that start with
    the instance's prefix and a colon: each of them once, in ascending
    byte order, and nothing else. *)
Theorem Badger_Keys_all (b : BadgerCache) (now : Z) (db : DB) :
  ∃ keys, Keys b now [] db = Ok keys
          ∧ (∀ key, key ∈ keys ↔
               HasPrefix key (Prefix b +:+ ":") = true
               ∧ ∃ item, db !! key = Some item ∧ expired now item = false)
          ∧ NoDup keys
          ∧ StronglySorted String.le keys.
Proof.
  unfold Keys, DBConn_View, keys_in_txn. rewrite scan_all. simpl.
  eexists; split; [reflexivity|]. split; [|split].
  - intros key. rewrite list_elem_of_filter, elem_of_iterator.
    by rewrite Is_true_true.
  - apply NoDup_filter, NoDup_iterator.
  - apply StronglySorted_filter, StronglySorted_iterator.
Qed.

(** X9: with one argument that contains a '*', [Keys] returns those
    keys of [Keys()] whose name without the prefix matches the pattern,
    in the same order. *)
Theorem Badger_Keys_wildcard (b : BadgerCache) (now : Z) (pattern : string) (db : DB) :
  Contains pattern star = true →
  ∃ all, Keys b now [] db = Ok all
         ∧ Keys b now [pattern] db
           = Ok (filter (λ key, matchWildcard (TrimPrefix key (Prefix b +:+ ":"))
                                  pattern = true) all).
Proof.
  intros Hstar. unfold Keys, DBConn_View, keys_in_txn. rewrite Hstar, !scan_all.
  simpl. eexists; split; [reflexivity|]. f_equal.
  rewrite list_filter_filter. apply list_filter_iff. intros key.
  unfold prefixedKey. change (":" +:+ "") with ":".
  destruct (HasPrefix key _); simpl; rewrite ?Is_true_true; intuition.
Qed.

Lemma txn_Get_cases (now : Z) (db : DB) (key : string) :
  (∃ item, txn_Get now db key = Ok item) ∨ txn_Get now db key = Err ErrKeyNotFound.
Proof.
  unfold txn_Get. destruct (db !! key) as [item|]; [|by right].
  destruct (expired now item); [by right|]. left; eauto.
Qed.

Lemma Exists_txn_Get (b : BadgerCache) (now : Z) (k : string) (db : DB) :
  Exists b now k db
  = match txn_Get now db (prefixedKey b k) with
    | Ok _ => Ok true
    | Err _ => Ok false
    end.
Proof.
  unfold Exists, DBConn_View.
  by destruct (txn_Get_cases now db (prefixedKey b k)) as [[item ->]| ->].
Qed.

Lemma each_key_found (b : BadgerCache) (now : Z) (db : DB) (ks keys : list string) :
  each_key b now db None ks keys
  = Ok (keys ++ (prefixedKey b <$> filter (λ k, Exists b now k db = Ok true) ks)).
Proof.
  revert keys. induction ks as [|k rest IH]; intros keys; simpl.
  - by rewrite app_nil_r.
  - rewrite filter_cons. case_decide as Hex; rewrite Exists_txn_Get in Hex;
      destruct (txn_Get_cases now db (prefixedKey b k)) as [[item HG]|HG];
      rewrite HG in *; simpl; try done; rewrite IH; by rewrite <- ?app_assoc.
Qed.

(** X10: with one argument without '*', or with two or more
    arguments, [Keys] takes every argument as an exact logical key (a
    '*' among several arguments is no wildcard) and returns the
    namespaced keys of those for which [Exists] is true, in the order
    of the arguments. *)
Theorem Badger_Keys_exact (b : BadgerCache) (now : Z) (k : string) (ks : list string)
    (db : DB) :
  (ks = [] → Contains k star = false) →
  Keys b now (k :: ks) db
  = Ok (prefixedKey b <$> filter (λ k, Exists b now k db = Ok true) (k :: ks)).
Proof.
  intros Hone. unfold Keys, DBConn_View, keys_in_txn.
  destruct ks as [|k2 rest].
  - rewrite Hone by done. rewrite filter_cons, filter_nil.
    case_decide as Hex; rewrite Exists_txn_Get in Hex;
      destruct (txn_Get_cases now db (prefixedKey b k)) as [[item HG]|HG];
      rewrite HG in *; simpl; done.
  - by rewrite each_key_found.
Qed.

End badger_keys.

Lemma Badger_Keys_wildcard_witness :
  Badger.Keys {| Badger.Prefix := "p" |} (5 * Second) ["test*"] small_store
  = Ok ["p:test1"; "p:test2"].
Proof.
  destruct (Badger_Keys_wildcard {| Badger.Prefix := "p" |} (5 * Second) "test*"
              small_store eq_refl) as (all & Hall & ->).
  assert (all = ["p:other"; "p:test1"; "p:test2"]) as ->.
  { assert (Ok all = Ok ["p:other"; "p:test1"; "p:test2"]) as Heq
      by (rewrite <- Hall; vm_compute; reflexivity).
    congruence. }
  vm_compute; reflexivity.
Defined.

Lemma Badger_Keys_exact_witness :
  Badger.Keys {| Badger.Prefix := "p" |} (5 * Second) ["test1"; "gone"; "te*"]
    small_store
  = Ok ["p:test1"].
Proof.
  rewrite (Badger_Keys_exact {| Badger.Prefix := "p" |} (5 * Second) "test1"
             ["gone"; "te*"] small_store) by discriminate.
  vm_compute; reflexivity.
Defined.

(** ** Bulk deletion on the embedded backend, within one batch *)

Section byte_order.
Import GoStrings.

Lemma String_le_compare (s1 s2 : string) :
  String.le s1 s2 ↔ String.compare s1 s2 ≠ Gt.
Proof.
  unfold String.le, String.leb. destruct (String.compare s1 s2); simpl; naive_solver.
Qed.

Lemma Ascii_compare_refl (c : ascii) : Ascii.compare c c = Eq.
Proof. apply N.compare_refl. Qed.

(** A key is not below any of its prefixes. *)
Lemma HasPrefix_le (key prefix : string) :
  HasPrefix key prefix = true → String.le prefix key.
Proof.
  rewrite String_le_compare. revert key.
  induction prefix as [|c prefix IH]; intros [|c' key]; simpl; try done.
  case_decide as Hc; [|done]. subst c'. rewrite Ascii_compare_refl. apply IH.
Qed.

(** In byte order, the keys with a given prefix lie together: between
    the prefix and a key that has it, every key has it. *)
Lemma HasPrefix_between (prefix k1 k2 : string) :
  String.le prefix k1 → String.le k1 k2 →
  HasPrefix k2 prefix = true → HasPrefix k1 prefix = true.
Proof.
  rewrite !String_le_compare. revert k1 k2.
  induction prefix as [|c prefix IH]; intros [|c1 k1] [|c2 k2]; simpl; try done.
  case_decide as Hc; [|done]. subst c2.
  rewrite (Ascii.compare_antisym c1 c).
  destruct (Ascii.compare c c1) eqn:Hcmp; simpl; try done.
  apply Ascii.compare_eq_iff in Hcmp as <-. rewrite decide_True by done.
  apply IH.
Qed.

End byte_order.

Section bulk_within_batch.
Import Badger.

Lemma Seek_spec (prefix : string) (it : list string) :
  StronglySorted String.le it →
  StronglySorted String.le (Seek prefix it)
  ∧ (∀ k, k ∈ Seek prefix it → String.le prefix k)
  ∧ (∀ k, k ∈ it → String.le prefix k → k ∈ Seek prefix it).
Proof.
  induction 1 as [|key rest Hsorted IH Hkey]; simpl.
  - split; [constructor|]. split; [by intros k ?%elem_of_nil|done].
  - case_bool_decide as Hle.
    + split; [by constructor|]. split; [|done].
      intros k [->|Hk]%elem_of_cons; [done|].
      rewrite Forall_forall in Hkey. etrans; [exact Hle|]. by apply Hkey.
    + destruct IH as (IH1 & IH2 & IH3). split; [done|]. split; [done|].
      intros k [->|Hk]%elem_of_cons Hp; [done|]. by apply IH3.
Qed.

(** The deletion loop on a pattern without '*', when the batch size is
    not reached: it removes the keys of the iterator that have the
    prefix, and only them. *)
Lemma delete_loop_all (pattern prefix : string) (batchSize : Z) (it : list string)
    (txn : DB) (deleted : Z) :
  Contains pattern star = false →
  StronglySorted String.le it →
  (∀ k, k ∈ it → String.le prefix k) →
  deleted + Z.of_nat (length (filter (λ k, HasPrefix k prefix) it)) ≤ batchSize →
  ∀ key,
    (key ∈ it → HasPrefix key prefix = true →
     (delete_loop pattern prefix batchSize it txn deleted).1 !! key = None)
    ∧ (¬ (key ∈ it ∧ HasPrefix key prefix = true) →
       (delete_loop pattern prefix batchSize it txn deleted).1 !! key = txn !! key).
Proof.
  intros Hstar Hsorted. revert txn deleted.
  induction Hsorted as [|key0 rest Hsorted IH Hkey0]; intros txn deleted Hge Hbound key;
    simpl.
  { split; [by intros ?%elem_of_nil|done]. }
  rewrite Forall_forall in Hkey0.
  destruct (HasPrefix key0 prefix) eqn:Hp0; simpl.
  - rewrite Hstar. simpl. rewrite filter_cons_True in Hbound by by rewrite Hp0.
    simpl in Hbound.
    assert (∀ k, k ∈ rest → String.le prefix k) as Hge'.
    { intros k Hk. apply Hge. by right. }
    case_bool_decide as Hfull; simpl.
    + assert (filter (λ k, HasPrefix k prefix) rest = []) as Hnone.
      { apply length_zero_iff_nil. lia. }
      unfold txn_Delete. split.
      * intros [->|Hin]%elem_of_cons Hp; [by rewrite lookup_delete_eq|].
        assert (key ∈ filter (λ k, HasPrefix k prefix) rest) as Hf.
        { apply list_elem_of_filter. split; [by rewrite Hp|done]. }
        rewrite Hnone in Hf. by apply elem_of_nil in Hf.
      * intros Hnot. rewrite lookup_delete_ne; [done|].
        intros <-. apply Hnot. split; [by left|done].
    + destruct (IH (txn_Delete key0 txn) (deleted + 1) Hge' ltac:(lia) key)
        as [IH1 IH2].
      split.
      * intros [->|Hin]%elem_of_cons Hp; [|by apply IH1].
        destruct (decide (key0 ∈ rest)) as [Hin|Hout]; [by apply IH1|].
        rewrite IH2 by (by intros [? _]). unfold txn_Delete.
        by rewrite lookup_delete_eq.
      * intros Hnot. rewrite IH2.
        -- unfold txn_Delete. rewrite lookup_delete_ne; [done|].
           intros <-. apply Hnot. split; [by left|done].
        -- intros [Hin Hp]. apply Hnot. split; [by right|done].
  - split; [|done].
    intros [->|Hin]%elem_of_cons Hp; [congruence|].
    assert (HasPrefix key0 prefix = true); [|congruence].
    apply (HasPrefix_between prefix key0 key); [|by apply Hkey0|done].
    apply Hge. by left.
Qed.

End bulk_within_batch.

Section bulk_scope.
Import Badger.

Lemma Seek_elem_of (prefix : string) (it : list string) (k : string) :
  k ∈ Seek prefix it → k ∈ it.
Proof.
  induction it as [|key rest IH]; simpl; [done|].
  case_bool_decide; [done|]. intros ?%IH. by right.
Qed.

Lemma Seek_filter_length (P : string → Prop) `{!∀ k, Decision (P k)}
    (prefix : string) (it : list string) :
  (length (filter P (Seek prefix it)) ≤ length (filter P it))%nat.
Proof.
  induction it as [|key rest IH]; simpl; [done|].
  case_bool_decide; [done|]. rewrite filter_cons. case_decide; simpl; lia.
Qed.

Lemma Contains_append (sep : ascii) (s t : string) :
  Contains (s +:+ t) sep = Contains s sep || Contains t sep.
Proof.
  induction s as [|c s IH]; rewrite ?append_nil, ?append_cons; simpl; [done|].
  by case_decide.
Qed.

Lemma Contains_before (sep : ascii) (s : string) :
  Contains (before sep s) sep = false.
Proof.
  induction s as [|c s IH]; simpl; [done|].
  case_decide as Hc; [done|]. simpl. by rewrite decide_False.
Qed.

Lemma Split_head (s : string) (sep : ascii) :
  nth 0 (Split s sep) EmptyString = before sep s.
Proof. by rewrite Split_unfold. Qed.

(** One committed round of [deleteKeysMatchingPattern] on a pattern
    without '*', when at most [batchSize] live keys have the prefix. *)
Lemma bulk_delete_lookup (now : Z) (pattern : string) (db : DB) :
  Contains pattern star = false →
  Z.of_nat (length (filter (λ k, HasPrefix k pattern) (iterator now db))) ≤ 10000 →
  ∃ db',
    emptyWithRetries
      (λ txn batchSize, deleteKeysMatchingPattern now txn pattern batchSize)
      10000 3 [] db = (db', None)
    ∧ ∀ key,
        db' !! key
        = match db !! key with
          | Some item =>
              if HasPrefix key pattern && negb (expired now item)
              then None else Some item
          | None => None
          end.
Proof.
  intros Hstar Hbound. unfold emptyWithRetries.
  change (Z.to_nat 3) with 3%nat. simpl.
  unfold DBConn_Update, deleteKeysMatchingPattern.
  rewrite Split_head, before_no_sep by done.
  destruct (Seek_spec pattern (iterator now db) (StronglySorted_iterator now db))
    as (Hsorted & Hge & Hin).
  pose proof (Seek_filter_length (λ k, HasPrefix k pattern) pattern (iterator now db))
    as Hlen.
  pose proof (delete_loop_all pattern pattern 10000 (Seek pattern (iterator now db))
                db 0 Hstar Hsorted Hge ltac:(lia)) as Hloop.
  destruct (delete_loop pattern pattern 10000 _ db 0) as [txn deleted].
  simpl in *. exists txn. split; [by destruct (decide (deleted = 0))|].
  intros key. destruct (Hloop key) as [Hgone Hkept].
  destruct (db !! key) as [item|] eqn:Hkey.
  - destruct (HasPrefix key pattern) eqn:Hp; simpl.
    + destruct (expired now item) eqn:Hex; simpl.
      * rewrite Hkept; [done|]. intros [Hk%Seek_elem_of _].
        apply elem_of_iterator in Hk as (item' & ? & ?). congruence.
      * apply Hgone; [|done]. apply Hin; [|by apply HasPrefix_le].
        apply elem_of_iterator. eauto.
    + rewrite Hkept; [done|]. by intros [_ ?].
  - rewrite Hkept; [done|]. intros [Hk%Seek_elem_of _].
    apply elem_of_iterator in Hk as (item' & ? & ?). congruence.
Qed.

(** X11: with no conflict and at most 10000 live keys under the
    instance's prefix (a prefix without '*'), [Empty] returns no error,
    [Keys()] returns nothing afterwards, and every key that does not
    start with the prefix and a colon keeps its entry. *)
Theorem Badger_Empty_clears (b : BadgerCache) (now : Z) (db : DB) (keys : list string) :
  Contains (Prefix b) star = false →
  Keys b now [] db = Ok keys →
  Z.of_nat (length keys) ≤ 10000 →
  ∃ db', Empty b now [] db = (db', None)
         ∧ Keys b now [] db' = Ok []
         ∧ ∀ key, HasPrefix key (Prefix b +:+ ":") = false → db' !! key = db !! key.
Proof.
  intros Hstar Hkeys Hbound.
  unfold Keys, DBConn_View, keys_in_txn in Hkeys. rewrite scan_all in Hkeys.
  simpl in Hkeys. injection Hkeys as <-.
  destruct (bulk_delete_lookup now (Prefix b +:+ ":") db) as (db' & Hrun & Hlook).
  { by rewrite Contains_append, Hstar. }
  { done. }
  exists db'. split; [exact Hrun|]. split.
  - unfold Keys, DBConn_View, keys_in_txn. rewrite scan_all. simpl. f_equal.
    destruct (filter _ (iterator now db')) as [|key rest] eqn:Hf; [done|].
    assert (key ∈ filter (λ key, HasPrefix key (Prefix b +:+ ":")) (iterator now db'))
      as [Hp Hin]%list_elem_of_filter by (rewrite Hf; left).
    apply Is_true_true in Hp.
    apply elem_of_iterator in Hin as (item & Hkey & Hlive).
    rewrite Hlook, Hp in Hkey. destruct (db !! key) as [item0|]; [|done].
    simpl in Hkey. destruct (expired now item0) eqn:Hex; simpl in Hkey; [|done].
    congruence.
  - intros key Hp. rewrite Hlook, Hp. by destruct (db !! key).
Qed.

End bulk_scope.

Section bulk_pattern.
Import Badger.

Lemma HasPrefix_append (key a c : string) :
  HasPrefix key (a +:+ c) = HasPrefix key a && HasPrefix (slice_from (len a) key) c.
Proof.
  revert key. induction a as [|x a IH]; intros key;
    rewrite ?append_nil, ?append_cons; simpl; [done|].
  destruct key as [|y key]; simpl.
  - by destruct (a +:+ c), c.
  - case_decide; [apply IH|done].
Qed.

Lemma matchWildcard_prefix_star (str pre : string) :
  Contains pre star = false →
  matchWildcard str (pre +:+ "*") = HasPrefix str pre.
Proof.
  intros Hpre. rewrite matchWildcard_star_eq by apply Contains_app.
  rewrite before_app, after_app by done. simpl. by rewrite andb_true_r.
Qed.

(** Under the instance's prefix, a key is in the scope of "pre*"
    exactly when its name without the prefix matches the pattern. *)
Lemma scope_matches (b : BadgerCache) (pre key : string) :
  Contains pre star = false →
  HasPrefix key ((Prefix b +:+ ":") +:+ pre)
  = HasPrefix key (Prefix b +:+ ":")
    && matchWildcard (TrimPrefix key (Prefix b +:+ ":")) (pre +:+ "*").
Proof.
  intros Hpre. rewrite HasPrefix_append, matchWildcard_prefix_star by done.
  unfold TrimPrefix. by destruct (HasPrefix key (Prefix b +:+ ":")).
Qed.

Lemma filter_none {A} (P : A → Prop) `{!∀ x, Decision (P x)} (l : list A) :
  (∀ x, x ∈ l → ¬ P x) → filter P l = [].
Proof.
  induction l as [|x l IH]; intros Hl; [done|].
  rewrite filter_cons_False by (apply Hl; by left).
  apply IH. intros y Hy. apply Hl. by right.
Qed.

Lemma iterator_unique (now : Z) (db : DB) (l : list string) :
  StronglySorted String.le l → NoDup l →
  (∀ key, key ∈ iterator now db ↔ key ∈ l) →
  iterator now db = l.
Proof.
  intros Hsorted Hnodup Hsame.
  apply (StronglySorted_unique String.le); [apply StronglySorted_iterator|done|].
  apply NoDup_Permutation; [apply NoDup_iterator|done..].
Qed.

(** X12: for a pattern "pre*", with no conflict, a prefix without '*'
    and at most 10000 keys that match, [EmptyByMatch] returns no error;
    afterwards [Keys] with the pattern returns nothing and [Keys()]
    returns the keys it returned before that do not match the
    pattern. *)
Theorem Badger_EmptyByMatch_prefix_pattern (b : BadgerCache) (now : Z) (pre : string)
    (db : DB) (all matching : list string) :
  Contains (Prefix b) star = false →
  Contains pre star = false →
  Keys b now [] db = Ok all →
  Keys b now [pre +:+ "*"] db = Ok matching →
  Z.of_nat (length matching) ≤ 10000 →
  ∃ db', EmptyByMatch b now [] (pre +:+ "*") db = (db', None)
         ∧ Keys b now [pre +:+ "*"] db' = Ok []
         ∧ Keys b now [] db'
           = Ok (filter (λ key, matchWildcard (TrimPrefix key (Prefix b +:+ ":"))
                                  (pre +:+ "*") = false) all).
Proof.
  intros Hstar Hpre Hall Hmatching Hbound.
  set (scope := (Prefix b +:+ ":") +:+ pre).
  assert (∀ db0, Keys b now [pre +:+ "*"] db0
                 = Ok (filter (λ key, HasPrefix key scope) (iterator now db0))) as Hwild.
  { intros db0. unfold Keys, DBConn_View, keys_in_txn.
    rewrite Contains_app, scan_all. simpl. f_equal. apply list_filter_iff.
    intros key. unfold scope, prefixedKey. change (":" +:+ "") with ":".
    rewrite scope_matches by done.
    by destruct (HasPrefix key (Prefix b +:+ ":")). }
  assert (∀ db0, Keys b now [] db0
                 = Ok (filter (λ key, HasPrefix key (Prefix b +:+ ":"))
                         (iterator now db0))) as Hplain.
  { intros db0. unfold Keys, DBConn_View, keys_in_txn. by rewrite scan_all. }
  rewrite Hwild in Hmatching. injection Hmatching as <-.
  rewrite Hplain in Hall. injection Hall as <-.
  destruct (bulk_delete_lookup now scope db) as (db' & Hrun & Hlook).
  { unfold scope. by rewrite !Contains_append, Hstar, Hpre. }
  { done. }
  exists db'. split.
  { unfold EmptyByMatch. rewrite Split_head, before_app by done. exact Hrun. }
  assert (iterator now db'
          = filter (λ key, HasPrefix key scope = false) (iterator now db)) as Hit.
  { apply iterator_unique.
    - apply StronglySorted_filter, StronglySorted_iterator.
    - apply NoDup_filter, NoDup_iterator.
    - intros key. rewrite list_elem_of_filter, !elem_of_iterator. rewrite Hlook.
      destruct (db !! key) as [item0|].
      2:{ split; [by intros (? & ? & ?)|by intros [_ (? & ? & ?)]]. }
      destruct (HasPrefix key scope); simpl.
      + split; [|by intros [? _]].
        destruct (expired now item0) eqn:Hex; simpl.
        * intros (item & Heq & Hlive). congruence.
        * by intros (item & ? & _).
      + split.
        * intros (item & Heq & Hlive). split; [done|]. eauto.
        * intros [_ Hitem]. exact Hitem. }
  split.
  - rewrite Hwild, Hit. f_equal. rewrite list_filter_filter.
    apply filter_none. intros key _ [Hp Hn]. apply Is_true_true in Hp. congruence.
  - rewrite Hplain, Hit. f_equal. rewrite !list_filter_filter.
    apply list_filter_iff. intros key. unfold scope.
    rewrite scope_matches by done.
    destruct (HasPrefix key (Prefix b +:+ ":")); simpl; rewrite ?Is_true_true.
    + destruct (matchWildcard _ _); intuition congruence.
    + intuition.
Qed.

End bulk_pattern.

Lemma Badger_Empty_clears_witness :
  ∃ db', Badger.Empty {| Badger.Prefix := "p" |} (5 * Second) [] small_store
           = (db', None)
         ∧ Badger.Keys {| Badger.Prefix := "p" |} (5 * Second) [] db' = Ok []
         ∧ db' !! "q:test3" = small_store !! "q:test3".
Proof.
  destruct (Badger_Empty_clears {| Badger.Prefix := "p" |} (5 * Second) small_store
              ["p:other"; "p:test1"; "p:test2"]) as (db' & H1 & H2 & H3).
  - reflexivity.
  - vm_compute; reflexivity.
  - vm_compute; discriminate.
  - exists db'. split; [exact H1|]. split; [exact H2|]. apply H3. reflexivity.
Defined.

Lemma Badger_EmptyByMatch_prefix_pattern_witness :
  ∃ db', Badger.EmptyByMatch {| Badger.Prefix := "p" |} (5 * Second) [] "test*"
           small_store = (db', None)
         ∧ Badger.Keys {| Badger.Prefix := "p" |} (5 * Second) ["test*"] db' = Ok []
         ∧ Badger.Keys {| Badger.Prefix := "p" |} (5 * Second) [] db' = Ok ["p:other"].
Proof.
  destruct (Badger_EmptyByMatch_prefix_pattern {| Badger.Prefix := "p" |} (5 * Second)
              "test" small_store ["p:other"; "p:test1"; "p:test2"]
              ["p:test1"; "p:test2"]) as (db' & H1 & H2 & H3).
  - reflexivity.
  - reflexivity.
  - vm_compute; reflexivity.
  - vm_compute; reflexivity.
  - vm_compute; discriminate.
  - exists db'. split; [exact H1|]. split; [exact H2|]. rewrite H3.
    vm_compute; reflexivity.
Defined.

(** ** Conflicts and scope of the bulk deletion *)

Section bulk_conflicts.
Import Badger.

Lemma deleteKeysMatchingPattern_no_error (now : Z) (pattern : string) (txn : DB)
    (batchSize : Z) :
  (deleteKeysMatchingPattern now txn pattern batchSize).2 = None.
Proof. unfold deleteKeysMatchingPattern. by destruct (delete_loop _ _ _ _ _ _). Qed.

(** The retry loop ends with the store as it was, or as one committed
    round leaves it. *)
Lemma retry_loop_store (deleteFunc : DB → Z → DB * Z * option error) (batchSize : Z)
    (remaining : nat) (conflicts : list bool) (db : DB) :
  (∀ txn n, (deleteFunc txn n).2 = None) →
  (retry_loop deleteFunc batchSize remaining conflicts db).1 = db
  ∨ (retry_loop deleteFunc batchSize remaining conflicts db).1
    = (deleteFunc db batchSize).1.1.
Proof.
  intros Hno. revert conflicts.
  induction remaining as [|remaining IH]; intros conflicts; simpl; [by left|].
  unfold DBConn_Update. cbv beta. specialize (Hno db batchSize).
  destruct (IH (tl conflicts)) as [Hsame|Hround];
    destruct (deleteFunc db batchSize) as [[txn deleted] err] eqn:Hrun;
    simpl in Hno; subst err;
    destruct (decide (deleted = 0)), (hd false conflicts); simpl; auto.
Qed.

Lemma emptyWithRetries_retries (deleteFunc : DB → Z → DB * Z * option error)
    (batchSize : Z) (db : DB) (rest : list bool) :
  (∀ txn n, (deleteFunc txn n).2 = None) →
  emptyWithRetries deleteFunc batchSize 3 (false :: rest) db
    = emptyWithRetries deleteFunc batchSize 3 [] db
  ∧ emptyWithRetries deleteFunc batchSize 3 (true :: false :: rest) db
    = emptyWithRetries deleteFunc batchSize 3 [] db
  ∧ emptyWithRetries deleteFunc batchSize 3 (true :: true :: false :: rest) db
    = emptyWithRetries deleteFunc batchSize 3 [] db
  ∧ emptyWithRetries deleteFunc batchSize 3 (true :: true :: true :: rest) db
    = (db, Some (Newf "failed to empty keys after %d retries" 3)).
Proof.
  intros Hno. unfold emptyWithRetries. change (Z.to_nat 3) with 3%nat.
  cbn [retry_loop hd tl]. unfold DBConn_Update. cbv beta.
  specialize (Hno db batchSize).
  destruct (deleteFunc db batchSize) as [[txn deleted] err] eqn:Hrun.
  simpl in Hno. subst err.
  destruct (decide (deleted = 0)); simpl; rewrite ?Hrun; simpl;
    destruct (decide (deleted = 0)); simpl; rewrite ?Hrun; simpl;
    by destruct (decide (deleted = 0)).
Qed.

Lemma delete_loop_scope (pattern prefix : string) (batchSize : Z) (it : list string)
    (txn : DB) (deleted : Z) (key : string) :
  HasPrefix key prefix = false →
  (delete_loop pattern prefix batchSize it txn deleted).1 !! key = txn !! key.
Proof.
  intros Hout. revert txn deleted.
  induction it as [|key0 rest IH]; intros txn deleted; simpl; [done|].
  destruct (HasPrefix key0 prefix) eqn:Hp0; simpl; [|done].
  destruct (Contains pattern star && negb (matchWildcard key0 pattern)); [apply IH|].
  assert (txn_Delete key0 txn !! key = txn !! key) as Hstep.
  { unfold txn_Delete. rewrite lookup_delete_ne; [done|]. congruence. }
  case_bool_decide; simpl; [done|]. by rewrite IH.
Qed.

(** X13: whatever conflicts occur, [EmptyByMatch] and [Empty] of an
    instance whose prefix has no '*' leave every key outside their
    scope as it was: [EmptyByMatch] every key that does not start with
    the prefix, a colon and the pattern text before its first '*',
    [Empty] every key that does not start with the prefix and a
    colon. *)
Theorem Badger_bulk_delete_scope (b : BadgerCache) (now : Z) (conflicts : list bool)
    (pattern : string) (db : DB) (key : string) :
  Contains (Prefix b) star = false →
  (HasPrefix key ((Prefix b +:+ ":") +:+ before star pattern) = false →
   (EmptyByMatch b now conflicts pattern db).1 !! key = db !! key)
  ∧ (HasPrefix key (Prefix b +:+ ":") = false →
     (Empty b now conflicts db).1 !! key = db !! key).
Proof.
  intros Hstar.
  assert (∀ scope, Contains scope star = false → HasPrefix key scope = false →
            (emptyWithRetries
               (λ txn batchSize, deleteKeysMatchingPattern now txn scope batchSize)
               10000 3 conflicts db).1 !! key = db !! key) as Hgen.
  { intros scope Hscope Hout. unfold emptyWithRetries.
    pose proof (retry_loop_store
                  (λ txn batchSize, deleteKeysMatchingPattern now txn scope batchSize)
                  10000 (Z.to_nat 3) conflicts db
                  (λ txn n, deleteKeysMatchingPattern_no_error now scope txn n))
      as Hstore.
    destruct (retry_loop _ _ _ _ _) as [db' outcome]. simpl in Hstore.
    assert (db' !! key = db !! key) as Hkey.
    { destruct Hstore as [->| ->]; [done|]. unfold deleteKeysMatchingPattern.
      rewrite Split_head, before_no_sep by done.
      pose proof (delete_loop_scope scope scope 10000
                    (Seek scope (iterator now db)) db 0 key Hout) as Hloop.
      by destruct (delete_loop _ _ _ _ _ _). }
    by destruct outcome. }
  split; intros Hout.
  - unfold EmptyByMatch. rewrite Split_head. apply Hgen; [|done].
    by rewrite !Contains_append, Hstar, Contains_before.
  - unfold Empty. apply Hgen; [|done]. by rewrite Contains_append, Hstar.
Qed.

(** X14: the conflict of a commit is retried at most twice: when one
    of the first three commits meets no conflict, [EmptyByMatch] ends as
    it does with no conflict at all; when the first three all conflict,
    it returns the "after 3 retries" error and the store is as it
    was. *)
Theorem Badger_EmptyByMatch_retries (b : BadgerCache) (now : Z) (pattern : string)
    (db : DB) (rest : list bool) :
  EmptyByMatch b now (false :: rest) pattern db = EmptyByMatch b now [] pattern db
  ∧ EmptyByMatch b now (true :: false :: rest) pattern db
    = EmptyByMatch b now [] pattern db
  ∧ EmptyByMatch b now (true :: true :: false :: rest) pattern db
    = EmptyByMatch b now [] pattern db
  ∧ EmptyByMatch b now (true :: true :: true :: rest) pattern db
    = (db, Some (Newf "failed to empty keys after %d retries" 3)).
Proof.
  apply emptyWithRetries_retries. intros txn n.
  apply deleteKeysMatchingPattern_no_error.
Qed.

End bulk_conflicts.

Lemma Badger_bulk_delete_scope_witness :
  (Badger.EmptyByMatch {| Badger.Prefix := "p" |} (5 * Second) [true] "test*"
     small_store).1 !! "p:other" = small_store !! "p:other".
Proof.
  apply (Badger_bulk_delete_scope {| Badger.Prefix := "p" |} (5 * Second) [true]
           "test*" small_store "p:other"); reflexivity.
Defined.

(** ** Batches on the embedded backend *)

Section badger_batches.
Context {V : Type} {codec : Gob V}.
Import Badger.

Lemma delete_each_lookup (b : BadgerCache) (keys : list string) (db : DB) (key : string) :
  delete_each b keys db !! key
  = if decide (key ∈ prefixedKey b <$> keys) then None else db !! key.
Proof.
  revert db. induction keys as [|k rest IH]; intros db.
  - case_decide as Hin; [|done]. by apply elem_of_nil in Hin.
  - change (delete_each b (k :: rest) db)
      with (delete_each b rest (txn_Delete (prefixedKey b k) db)).
    rewrite IH, fmap_cons. unfold txn_Delete.
    destruct (decide (key ∈ prefixedKey b <$> rest)) as [Hin|Hout].
    + rewrite decide_True; [done|]. by right.
    + destruct (decide (key = prefixedKey b k)) as [->|Hne].
      * rewrite decide_True by by left. by rewrite lookup_delete_eq.
      * rewrite decide_False by (by intros [?|?]%elem_of_cons).
        by rewrite lookup_delete_ne.
Qed.

(** X15: [DeleteMultiple] returns no error; afterwards none of the
    listed keys exists, listed twice or absent before or not, and [Get]
    of every key that is not listed answers as before. *)
Theorem Badger_DeleteMultiple_removes (b : BadgerCache) (now : Z) (keys : list string)
    (db : DB) :
  ∃ db', DeleteMultiple b keys db = (db', None)
         ∧ (∀ k, k ∈ keys → Exists b now k db' = Ok false)
         ∧ (∀ k, k ∉ keys → Get (V := V) b now k db' = Get b now k db).
Proof.
  unfold DeleteMultiple. eexists; split; [reflexivity|]. split.
  - intros k Hk. unfold Exists, DBConn_View, txn_Get.
    rewrite delete_each_lookup, decide_True; [done|].
    apply list_elem_of_fmap. eauto.
  - intros k Hk. apply Get_ext. rewrite delete_each_lookup, decide_False; [done|].
    intros (k' & Heq%prefixedKey_inj & Hin)%list_elem_of_fmap. by subst.
Qed.

Lemma set_each_lookup (b : BadgerCache) (now : Z) (order : list (string * V))
    (wb : DB) :
  NoDup order.*1 →
  (∀ k v, (k, v) ∈ order → is_Some (gob_Encode {[ prefixedKey b k := v ]})) →
  ∃ wb', set_each b now [] order wb = Ok wb'
         ∧ (∀ k v, (k, v) ∈ order →
              ∃ enc, gob_Encode {[ prefixedKey b k := v ]} = Some enc
                     ∧ wb' !! prefixedKey b k = Some (NewEntry enc))
         ∧ (∀ key, key ∉ prefixedKey b <$> order.*1 → wb' !! key = wb !! key).
Proof.
  revert wb. induction order as [|[k v] rest IH]; intros wb Hnodup Henc; simpl.
  - exists wb. split; [done|]. split; [|done]. by intros k v ?%elem_of_nil.
  - apply NoDup_cons in Hnodup as [Hk Hnodup].
    destruct (Henc k v ltac:(by left)) as [enc Hkv].
    unfold encodeValue. rewrite insert_empty, Hkv.
    destruct (IH (txn_SetEntry (prefixedKey b k) (NewEntry enc) wb) Hnodup)
      as (wb' & Hrun & Hin & Hout).
    { intros k' v' Hin. apply Henc. by right. }
    exists wb'. split; [done|].
    assert (prefixedKey b k ∉ prefixedKey b <$> rest.*1) as Hfresh.
    { intros (k' & Heq%prefixedKey_inj & Hin')%list_elem_of_fmap. by subst. }
    split.
    + intros k' v' [[= -> ->]|Hin']%elem_of_cons; [|by apply Hin].
      exists enc. split; [done|]. rewrite Hout by done.
      unfold txn_SetEntry. by rewrite lookup_insert_eq.
    + intros key Hkey.
      rewrite Hout by (intros ?; apply Hkey; by right).
      unfold txn_SetEntry. rewrite lookup_insert_ne; [done|].
      intros <-. apply Hkey. by left.
Qed.

(** X16: [SetMultiple] of a map whose values are all serializable
    returns no error, in whatever order the map is ranged over;
    afterwards [Get] returns, for every key of the map, the value the
    map gives it, and answers for every other key as before.
    [UpdateMultiple] does the same, for absent keys too. *)
Theorem Badger_SetMultiple_Get (b : BadgerCache) (now now' : Z)
    (items : gmap string V) (order : list (string * V)) (db : DB) :
  order ≡ₚ map_to_list items →
  (∀ k v, items !! k = Some v → serializable (prefixedKey b k) v) →
  ∃ db', SetMultiple b now order [] db = (db', None)
         ∧ UpdateMultiple b now order [] db = (db', None)
         ∧ (∀ k v, items !! k = Some v → Get b now' k db' = Ok (Some v))
         ∧ (∀ k, items !! k = None → Get (V := V) b now' k db' = Get b now' k db).
Proof.
  intros Horder Hser.
  assert (∀ k v, (k, v) ∈ order ↔ items !! k = Some v) as Hin.
  { intros k v. by rewrite Horder, elem_of_map_to_list. }
  destruct (set_each_lookup b now order db) as (db' & Hrun & Hset & Hout).
  { rewrite Horder. apply NoDup_fst_map_to_list. }
  { intros k v Hkv%Hin. destruct (Hser k v Hkv) as (enc & -> & _). eauto. }
  exists db'. unfold SetMultiple, UpdateMultiple. rewrite Hrun.
  split; [done|]. split; [done|]. split.
  - intros k v Hkv. destruct (Hser k v Hkv) as (enc & Henc & Hdec).
    destruct (Hset k v) as (enc' & Henc' & Hlook); [by apply Hin|].
    assert (enc' = enc) as -> by congruence.
    unfold Get, DBConn_View, txn_Get. rewrite Hlook. simpl.
    unfold decodeValue. rewrite Hdec. by rewrite lookup_singleton_eq.
  - intros k Hnone. apply Get_ext. apply Hout.
    intros (k' & Heq%prefixedKey_inj & Hk')%list_elem_of_fmap. subst k'.
    apply list_elem_of_fmap in Hk' as ([k2 v2] & -> & Hkv%Hin). simpl in *.
    congruence.
Qed.

(** X17: when gob cannot encode one of the values, [SetMultiple] and
    [UpdateMultiple] return the encoding error and write nothing,
    whatever the order and the TTL. *)
Theorem Badger_SetMultiple_unencodable (b : BadgerCache) (now : Z)
    (order : list (string * V)) (expires : list Z) (db : DB) (k : string) (v : V) :
  (k, v) ∈ order →
  gob_Encode {[ prefixedKey b k := v ]} = None →
  SetMultiple b now order expires db
  = (db, Some (Wrap "failed to encode value: "
                 (Wrap "failed to encode value: " ErrGob)))
  ∧ UpdateMultiple b now order expires db
    = (db, Some (Wrap "failed to encode value: "
                   (Wrap "failed to encode value: " ErrGob))).
Proof.
  intros Hin Hbad.
  assert (∀ wb, set_each b now expires order wb
                = Err (Wrap "failed to encode value: "
                         (Wrap "failed to encode value: " ErrGob))) as Hrun.
  { induction order as [|[k' v'] rest IH]; intros wb; [by apply elem_of_nil in Hin|].
    simpl. unfold encodeValue. rewrite insert_empty.
    destruct (gob_Encode {[ prefixedKey b k' := v' ]}) as [enc|] eqn:Henc; [|done].
    apply IH. apply elem_of_cons in Hin as [[= -> ->]|Hin]; [congruence|done]. }
  unfold SetMultiple, UpdateMultiple. by rewrite Hrun.
Qed.

End badger_batches.

Lemma Badger_SetMultiple_Get_witness :
  ∃ db', Badger.SetMultiple (codec := Toy.gob) {| Badger.Prefix := "p" |} 0
           [("k", "v")] [] ∅ = (db', None)
         ∧ Badger.Get (codec := Toy.gob) {| Badger.Prefix := "p" |} 9 "k" db'
           = Ok (Some "v").
Proof.
  destruct (Badger_SetMultiple_Get (codec := Toy.gob) {| Badger.Prefix := "p" |} 0 9
              {[ "k" := "v" ]} [("k", "v")] ∅) as (db' & H1 & _ & H3 & _).
  - by rewrite map_to_list_singleton.
  - intros k v [<- <-]%lookup_singleton_Some.
    exists (String (ascii_of_nat 3) "p:kv"); split; vm_compute; reflexivity.
  - exists db'. split; [exact H1|]. apply H3. apply lookup_singleton_eq.
Defined.

Lemma Badger_SetMultiple_unencodable_witness :
  Badger.SetMultiple
    (codec := {| gob_Encode := λ _ : gmap string string, None;
                 gob_Decode := λ _, None |})
    {| Badger.Prefix := "p" |} 0 [("k", "v")] [] ∅
  = (∅, Some (Wrap "failed to encode value: "
                (Wrap "failed to encode value: " ErrGob))).
Proof.
  apply (Badger_SetMultiple_unencodable
           (codec := {| gob_Encode := λ _ : gmap string string, None;
                        gob_Decode := λ _, None |})
           {| Badger.Prefix := "p" |} 0 [("k", "v")] [] ∅ "k" "v").
  - by left.
  - reflexivity.
Defined.

(** ** Reading and dropping whole stores on the embedded backend *)

Section badger_whole_store.
Context {V : Type} {codec : Gob V}.
Import Badger.

Lemma get_all_lookup (db : DB) (it : list string)
    (results : gmap string (option V)) :
  (∀ key, key ∈ it →
     ∃ item, db !! key = Some item ∧ is_Some (gob_Decode (Value item))) →
  ∃ r, get_all db it results = Ok r
       ∧ ∀ key,
           r !! key
           = if decide (key ∈ it)
             then item ← db !! key;
                  decoded ← gob_Decode (Value item);
                  Some (decoded !! key)
             else results !! key.
Proof.
  revert results. induction it as [|key0 rest IH]; intros results Hit.
  - exists results. split; [done|]. intros key.
    case_decide as Hin; [|done]. by apply elem_of_nil in Hin.
  - destruct (Hit key0 ltac:(by left)) as (item0 & Hkey0 & decoded0 & Hdec0).
    simpl. rewrite Hkey0. unfold decodeValue. rewrite Hdec0.
    destruct (IH (<[key0 := decoded0 !! key0]> results)) as (r & Hrun & Hr).
    { intros key Hin. apply Hit. by right. }
    exists r. split; [done|]. intros key. rewrite Hr.
    destruct (decide (key ∈ rest)) as [Hin|Hout].
    + rewrite decide_True; [done|]. by right.
    + destruct (decide (key = key0)) as [->|Hne].
      * rewrite decide_True by by left.
        rewrite lookup_insert_eq, Hkey0. simpl. by rewrite Hdec0.
      * rewrite decide_False by (by intros [?|?]%elem_of_cons).
        by rewrite lookup_insert_ne.
Qed.

(** X18: [GetAll] is not bound to the instance's prefix: when every
    live value of the store decodes, it returns one entry for every
    live key of the store, whatever its prefix, holding what the decoded
    value gives for that key, and no entry for any other key. *)
Theorem Badger_GetAll_whole_store (b : BadgerCache) (now : Z) (db : DB) :
  (∀ key item, db !! key = Some item → expired now item = false →
     is_Some (gob_Decode (Value item))) →
  ∃ results,
    GetAll (V := V) b now db = Ok results
    ∧ ∀ key,
        results !! key
        = match db !! key with
          | Some item =>
              if expired now item then None
              else decoded ← gob_Decode (Value item); Some (decoded !! key)
          | None => None
          end.
Proof.
  intros Hdec. unfold GetAll, DBConn_View.
  destruct (get_all_lookup db (iterator now db) ∅) as (r & -> & Hr).
  { intros key (item & Hkey & Hlive)%elem_of_iterator. eauto. }
  exists r. split; [done|]. intros key. rewrite Hr.
  case_decide as Hin.
  - apply elem_of_iterator in Hin as (item & -> & ->). done.
  - rewrite lookup_empty. destruct (db !! key) as [item|] eqn:Hkey; [|done].
    destruct (expired now item) eqn:Hlive; [done|].
    destruct Hin. apply elem_of_iterator. eauto.
Qed.

(** X19: one live value that gob cannot decode, under any prefix,
    makes [GetAll] fail with the decoding error. *)
Theorem Badger_GetAll_undecodable (b : BadgerCache) (now : Z) (db : DB)
    (key : string) (item : Item) :
  db !! key = Some item →
  expired now item = false →
  gob_Decode (V := V) (Value item) = None →
  GetAll (V := V) b now db
  = Err (Wrap "failed to retrieve all key-value pairs: "
           (Wrap "failed to decode value: " ErrGob)).
Proof.
  intros Hkey Hlive Hbad. unfold GetAll, DBConn_View.
  assert (key ∈ iterator now db) as Hin by (apply elem_of_iterator; eauto).
  assert (∀ it results, key ∈ it →
            (∀ k, k ∈ it → is_Some (db !! k)) →
            get_all db it results = Err (Wrap "failed to decode value: " ErrGob))
    as Hloop.
  { induction it as [|key0 rest IH]; intros results Hk Hsome;
      [by apply elem_of_nil in Hk|].
    simpl. destruct (Hsome key0 ltac:(by left)) as [item0 Hkey0]. rewrite Hkey0.
    unfold decodeValue.
    destruct (gob_Decode (Value item0)) as [decoded|] eqn:Hdec0; [|done].
    apply IH.
    - apply elem_of_cons in Hk as [->|Hk]; [congruence|done].
    - intros k ?. apply Hsome. by right. }
  rewrite (Hloop _ _ Hin); [done|].
  intros k (item' & -> & _)%elem_of_iterator. eauto.
Qed.

(** X20: [DropByPrefix] drops by the bare prefix, without the colon:
    it returns no error, [Keys()] returns nothing afterwards, every key
    that starts with the prefix is gone, those of another instance whose
    prefix extends this one included, and every other key keeps its
    entry. *)
Theorem Badger_DropByPrefix_drops (b : BadgerCache) (now : Z) (db : DB) :
  ∃ db', DropByPrefix b db = (db', None)
         ∧ Keys b now [] db' = Ok []
         ∧ (∀ key, HasPrefix key (Prefix b) = true → db' !! key = None)
         ∧ (∀ key, HasPrefix key (Prefix b) = false → db' !! key = db !! key).
Proof.
  unfold DropByPrefix. eexists; split; [reflexivity|].
  assert (∀ key, HasPrefix key (Prefix b) = true →
            filter (λ kv, HasPrefix kv.1 (Prefix b) = false) db !! key = None) as Hgone.
  { intros key Hp. apply map_lookup_filter_None. right. intros item _. simpl.
    congruence. }
  split; [|split; [done|]].
  - unfold Keys, DBConn_View, keys_in_txn. rewrite scan_all. simpl. f_equal.
    apply filter_none. intros key (item & Hkey & _)%elem_of_iterator Hp.
    apply Is_true_true in Hp. rewrite HasPrefix_append in Hp.
    apply andb_true_iff in Hp as [Hp _]. rewrite Hgone in Hkey; done.
  - intros key Hp. destruct (db !! key) as [item|] eqn:Hkey.
    + apply map_lookup_filter_Some. done.
    + apply map_lookup_filter_None. by left.
Qed.

End badger_whole_store.

Lemma Badger_GetAll_whole_store_witness :
  ∃ results,
    Badger.GetAll (codec := Toy.gob) {| Badger.Prefix := "p" |} 0
      {[ "q:k" := Badger.mkItem (String (ascii_of_nat 3) "q:kv") 0 ]} = Ok results
    ∧ results !! "q:k" = Some (Some "v").
Proof.
  destruct (Badger_GetAll_whole_store (codec := Toy.gob) {| Badger.Prefix := "p" |} 0
              {[ "q:k" := Badger.mkItem (String (ascii_of_nat 3) "q:kv") 0 ]})
    as (results & H1 & H2).
  - intros key item [<- <-]%lookup_singleton_Some _. vm_compute. eauto.
  - exists results. split; [exact H1|]. rewrite H2. vm_compute; reflexivity.
Defined.

Lemma Badger_GetAll_undecodable_witness :
  Badger.GetAll (codec := Toy.gob) {| Badger.Prefix := "p" |} 0
    {[ "q:x" := Badger.mkItem "" 0 ]}
  = Err (Wrap "failed to retrieve all key-value pairs: "
           (Wrap "failed to decode value: " ErrGob)).
Proof.
  apply (Badger_GetAll_undecodable (codec := Toy.gob) {| Badger.Prefix := "p" |} 0
           {[ "q:x" := Badger.mkItem "" 0 ]} "q:x" (Badger.mkItem "" 0));
    reflexivity.
Defined.

(** ** Single keys on the remote backend *)

Section redis_single_key.
Context {V : Type} {codec : Gob V} {minutes : Redis.MinutesConv}.
Import Redis.

Lemma Redis_prefixedKey_inj (rc : RedisCache) (k1 k2 : string) :
  prefixedKey rc k1 = prefixedKey rc k2 → k1 = k2.
Proof.
  unfold prefixedKey. intros H%(inj (String.append _)).
  by apply (inj (String.append ":")) in H.
Qed.

Lemma Redis_Get_ext (rc : RedisCache) (now : Z) (key : string) (srv1 srv2 : Server) :
  srv1 !! prefixedKey rc key = srv2 !! prefixedKey rc key →
  Get (V := V) rc now key srv1 = Get rc now key srv2.
Proof. intros H. unfold Get, GET, find. by rewrite H. Qed.

(** X21: [Delete] returns no error whether or not the key is there;
    afterwards [Exists] is false and [Get] returns no value and no
    error, every other key keeps its entry, and a second [Delete]
    changes nothing. *)
Theorem Redis_Delete_removes (rc : RedisCache) (now : Z) (key : string) (srv : Server) :
  ∃ srv', Delete rc now key srv = (srv', None)
          ∧ Exists rc now key srv' = Ok false
          ∧ Get (V := V) rc now key srv' = Ok None
          ∧ (∀ other, other ≠ prefixedKey rc key → srv' !! other = srv !! other)
          ∧ Delete rc now key srv' = (srv', None).
Proof.
  exists (delete (prefixedKey rc key) srv).
  assert (∀ s, Delete rc now key s = (delete (prefixedKey rc key) s, None)) as HD.
  { intros s. unfold Delete, DEL. by destruct (find now s _). }
  split; [apply HD|]. repeat split.
  - unfold Exists, EXISTS, find. by rewrite lookup_delete_eq.
  - unfold Get, GET, find. by rewrite lookup_delete_eq.
  - intros other Hne. by rewrite lookup_delete_ne.
  - by rewrite HD, delete_delete_eq.
Qed.

(** X22: [Update] of a live key with a serializable value and no TTL
    returns no error, [Get] returns the new value afterwards at any
    time, and the expiry the key had is dropped; [Get] of every other
    key is unaffected. *)
Theorem Redis_Update_existing (rc : RedisCache) (now now' : Z) (key : string)
    (value : V) (srv : Server) (old : Entry) :
  srv !! prefixedKey rc key = Some old →
  live now old = true →
  serializable (prefixedKey rc key) value →
  ∃ srv' enc,
    Update rc now key value [] srv = (srv', None)
    ∧ srv' !! prefixedKey rc key = Some (mkEntry enc None)
    ∧ Get rc now' key srv' = Ok (Some value)
    ∧ ∀ other, other ≠ key → Get (V := V) rc now' other srv' = Get rc now' other srv.
Proof.
  intros Hkey Hlive (enc & Henc & Hdec).
  unfold Update, EXISTS, find. rewrite Hkey, Hlive. simpl.
  unfold encodeValue. rewrite insert_empty, Henc. simpl.
  eexists _, enc. split; [reflexivity|]. split; [by rewrite lookup_insert_eq|].
  split.
  - unfold Get, GET, find. rewrite lookup_insert_eq. simpl.
    unfold decodeValue. rewrite Hdec. by rewrite lookup_singleton_eq.
  - intros other Hne. apply Redis_Get_ext. rewrite lookup_insert_ne; [done|].
    by intros ?%Redis_prefixedKey_inj.
Qed.

(** X23: a TTL whose whole minutes are not positive makes [Set] fail:
    the server refuses the expire time, [Set] returns that error wrapped
    and the server is as before. *)
Theorem Redis_Set_short_TTL_fails (rc : RedisCache) (now : Z) (key : string)
    (value : V) (d : Z) (more : list Z) (srv : Server) (enc : string) :
  gob_Encode {[ prefixedKey rc key := value ]} = Some enc →
  int_Minutes d ≤ 0 →
  Set_ rc now key value (d :: more) srv
  = (srv, Some (Wrap "failed to set cache: "
                  (ErrReply "ERR invalid expire time in 'setex' command"))).
Proof.
  intros Henc Hm. unfold Set_, encodeValue, SETEX.
  rewrite insert_empty, Henc. by rewrite bool_decide_true.
Qed.

(** X24: with a TTL of [m > 0] whole minutes, [Set] stores the key with
    an expiry [m] seconds ahead: the key exists exactly until [1000 * m]
    milliseconds of the server's clock have passed. *)
Theorem Redis_Set_TTL_window (rc : RedisCache) (now now' : Z) (key : string)
    (value : V) (d : Z) (srv : Server) :
  serializable (prefixedKey rc key) value →
  0 < int_Minutes d →
  ∃ srv', Set_ rc now key value [d] srv = (srv', None)
          ∧ Exists rc now' key srv'
            = Ok (bool_decide (now' < now + 1000 * int_Minutes d))
          ∧ (now' < now + 1000 * int_Minutes d →
             Get rc now' key srv' = Ok (Some value)).
Proof.
  intros (enc & Henc & Hdec) Hm. unfold Set_, encodeValue, SETEX.
  rewrite insert_empty, Henc. rewrite bool_decide_false by lia.
  eexists; split; [reflexivity|].
  replace (int_Minutes d * 1000) with (1000 * int_Minutes d) by lia.
  split.
  - unfold Exists, EXISTS, find, live. rewrite lookup_insert_eq. simpl.
    by case_bool_decide.
  - intros Hnow. unfold Get, GET, find, live. rewrite lookup_insert_eq. simpl.
    rewrite bool_decide_true by done. simpl.
    unfold decodeValue. rewrite Hdec. by rewrite lookup_singleton_eq.
Qed.

End redis_single_key.

Section redis_expiry.
Context {V : Type} {codec : Gob V} {minutes : Redis.MinutesConv}.
Import Redis.

(** X25: [Expire] on a live key hands the whole minutes [m] of the
    duration to the server as seconds.  When [m] is not positive the key
    is deleted at once.  When [m] is positive the key exists exactly
    until [1000 * m] milliseconds have passed, while [TTL], asked at
    once, reports [m] minutes. *)
Theorem Redis_Expire_live (rc : RedisCache) (now now' d : Z) (key : string)
    (srv : Server) (e : Entry) :
  srv !! prefixedKey rc key = Some e →
  live now e = true →
  ∃ srv', Expire rc now key d srv = (srv', None)
          ∧ (int_Minutes d ≤ 0 → Exists rc now' key srv' = Ok false)
          ∧ (0 < int_Minutes d →
             Exists rc now' key srv'
             = Ok (bool_decide (now' < now + 1000 * int_Minutes d)))
          ∧ (0 < int_Minutes d → int_Minutes d * Minute < 2 ^ 63 →
             TTL rc now key srv' = Ok (int_Minutes d * Minute)).
Proof.
  intros Hkey Hlive. unfold Expire, EXPIRE, find. rewrite Hkey, Hlive.
  case_bool_decide as Hm; eexists; (split; [reflexivity|]);
    (split; [|split]); intros; try lia.
  - unfold Exists, EXISTS, find. by rewrite lookup_delete_eq.
  - unfold Exists, EXISTS, find, live. rewrite lookup_insert_eq. simpl.
    replace (int_Minutes d * 1000) with (1000 * int_Minutes d) by lia.
    by case_bool_decide.
  - unfold TTL, TTL_, find, live. rewrite lookup_insert_eq. simpl.
    rewrite bool_decide_true by lia. simpl. f_equal.
    assert ((now + int_Minutes d * 1000 - now + 500) `div` 1000 = int_Minutes d)
      as -> by (Z.to_euclidean_division_equations; lia).
    unfold int64, Minute, Second in *.
    change (2 ^ 64) with 18446744073709551616.
    change (2 ^ 63) with 9223372036854775808 in *.
    Z.to_euclidean_division_equations. lia.
Qed.

(** X26: [Update] of a live key with a TTL: when the whole minutes [m]
    of the TTL are not positive, [Update] returns no error and the key
    is gone; when [m] is positive the new value is there exactly until
    [1000 * m] milliseconds have passed. *)
Theorem Redis_Update_TTL (rc : RedisCache) (now now' d : Z) (key : string)
    (value : V) (srv : Server) (old : Entry) :
  srv !! prefixedKey rc key = Some old →
  live now old = true →
  serializable (prefixedKey rc key) value →
  ∃ srv', Update rc now key value [d] srv = (srv', None)
          ∧ (int_Minutes d ≤ 0 → Exists rc now' key srv' = Ok false)
          ∧ (0 < int_Minutes d →
             Exists rc now' key srv'
             = Ok (bool_decide (now' < now + 1000 * int_Minutes d)))
          ∧ (0 < int_Minutes d → now' < now + 1000 * int_Minutes d →
             Get rc now' key srv' = Ok (Some value)).
Proof.
  intros Hkey Hlive (enc & Henc & Hdec).
  unfold Update, EXISTS, find. rewrite Hkey, Hlive. simpl.
  unfold encodeValue. rewrite insert_empty, Henc. simpl.
  unfold EXPIRE, find. rewrite lookup_insert_eq. simpl.
  case_bool_decide as Hm; eexists; (split; [reflexivity|]);
    (split; [|split]); intros; try lia.
  - unfold Exists, EXISTS, find. by rewrite lookup_delete_eq.
  - unfold Exists, EXISTS, find, live. rewrite lookup_insert_eq. simpl.
    replace (int_Minutes d * 1000) with (1000 * int_Minutes d) by lia.
    by case_bool_decide.
  - unfold Get, GET, find, live. rewrite lookup_insert_eq. simpl.
    rewrite bool_decide_true by lia. simpl.
    unfold decodeValue. rewrite Hdec. by rewrite lookup_singleton_eq.
Qed.

End redis_expiry.

Lemma Redis_Update_existing_witness :
  ∃ srv' enc,
    Redis.Update (codec := Toy.gob) (minutes := Toy.minutes) {| Redis.Prefix := "p" |}
      0 "k" "w" [] {[ "p:k" := Redis.mkEntry "old" (Some 9000) ]} = (srv', None)
    ∧ srv' !! "p:k" = Some (Redis.mkEntry enc None)
    ∧ Redis.Get (codec := Toy.gob) {| Redis.Prefix := "p" |} 99000 "k" srv'
      = Ok (Some "w").
Proof.
  destruct (Redis_Update_existing (codec := Toy.gob) (minutes := Toy.minutes)
              {| Redis.Prefix := "p" |} 0 99000 "k" "w"
              {[ "p:k" := Redis.mkEntry "old" (Some 9000) ]}
              (Redis.mkEntry "old" (Some 9000)))
    as (srv' & enc & H1 & H2 & H3 & _).
  - reflexivity.
  - reflexivity.
  - exists (String (ascii_of_nat 3) "p:kw"); split; vm_compute; reflexivity.
  - exists srv', enc. auto.
Defined.

Lemma Redis_Set_short_TTL_fails_witness :
  Redis.Set_ (codec := Toy.gob) (minutes := Toy.minutes) {| Redis.Prefix := "p" |}
    0 "k" "v" [30 * Second] ∅
  = (∅, Some (Wrap "failed to set cache: "
                (ErrReply "ERR invalid expire time in 'setex' command"))).
Proof.
  apply (Redis_Set_short_TTL_fails (codec := Toy.gob) (minutes := Toy.minutes)
           {| Redis.Prefix := "p" |} 0 "k" "v" (30 * Second) [] ∅
           (String (ascii_of_nat 3) "p:kv")).
  - vm_compute; reflexivity.
  - vm_compute; discriminate.
Defined.

Lemma Redis_Set_TTL_window_witness :
  ∃ srv', Redis.Set_ (codec := Toy.gob) (minutes := Toy.minutes)
            {| Redis.Prefix := "p" |} 0 "k" "v" [5 * Minute] ∅ = (srv', None)
          ∧ Redis.Exists {| Redis.Prefix := "p" |} 5000 "k" srv' = Ok false.
Proof.
  destruct (Redis_Set_TTL_window (codec := Toy.gob) (minutes := Toy.minutes)
              {| Redis.Prefix := "p" |} 0 5000 "k" "v" (5 * Minute) ∅)
    as (srv' & H1 & H2 & _).
  - exists (String (ascii_of_nat 3) "p:kv"); split; vm_compute; reflexivity.
  - vm_compute; reflexivity.
  - exists srv'. split; [exact H1|]. rewrite H2. vm_compute; reflexivity.
Defined.

Lemma Redis_Expire_live_witness :
  ∃ srv', Redis.Expire (minutes := Toy.minutes) {| Redis.Prefix := "p" |} 0 "k"
            (1 * Second) {[ "p:k" := Redis.mkEntry "x" None ]} = (srv', None)
          ∧ Redis.Exists {| Redis.Prefix := "p" |} 0 "k" srv' = Ok false.
Proof.
  destruct (Redis_Expire_live (minutes := Toy.minutes) {| Redis.Prefix := "p" |}
              0 0 (1 * Second) "k" {[ "p:k" := Redis.mkEntry "x" None ]}
              (Redis.mkEntry "x" None)) as (srv' & H1 & H2 & _).
  - reflexivity.
  - reflexivity.
  - exists srv'. split; [exact H1|]. apply H2. vm_compute; discriminate.
Defined.

Lemma Redis_Update_TTL_witness :
  ∃ srv', Redis.Update (codec := Toy.gob) (minutes := Toy.minutes)
            {| Redis.Prefix := "p" |} 0 "k" "w" [30 * Second]
            {[ "p:k" := Redis.mkEntry "old" None ]} = (srv', None)
          ∧ Redis.Exists {| Redis.Prefix := "p" |} 0 "k" srv' = Ok false.
Proof.
  destruct (Redis_Update_TTL (codec := Toy.gob) (minutes := Toy.minutes)
              {| Redis.Prefix := "p" |} 0 0 (30 * Second) "k" "w"
              {[ "p:k" := Redis.mkEntry "old" None ]} (Redis.mkEntry "old" None))
    as (srv' & H1 & H2 & _).
  - reflexivity.
  - reflexivity.
  - exists (String (ascii_of_nat 3) "p:kw"); split; vm_compute; reflexivity.
  - exists srv'. split; [exact H1|]. apply H2. vm_compute; discriminate.
Defined.
